(** * gomavlib: the Node runtime (node.go)

    A shallow embedding of [NewNode], [Node.start], [Node.Close],
    [Node.createChannel] and the three write primitives [writeTo],
    [writeAll] and [writeExcept], together with the package constants.

    Go values are modelled as follows:
    - [byte] as [N], [int] and [time.Duration] as [Z];
    - pointers ([*Channel], [*channelAccepter], [*nodeHeartbeat]) as
      addresses ([positive]), a nil pointer as [None];
    - [map[*T]struct{}] as a [gset] of addresses;
    - a Go function body as a computation over the [World] with a stack of
      deferred calls and early [return]; a call can complete, panic, or
      block for ever. *)

From Stdlib Require Import ZArith NArith String List.
From stdpp Require Import base gmap sets list strings.

Open Scope Z_scope.

Set Warnings "-clear-no-such-hyp".

(** ** Package constants *)

Module time.
(** Go's [time.Duration] counts nanoseconds in an int64. *)
Definition Duration := Z.
Definition Nanosecond : Duration := 1.
Definition Microsecond : Duration := 1000 * Nanosecond.
Definition Millisecond : Duration := 1000 * Microsecond.
Definition Second : Duration := 1000 * Millisecond.
End time.

(* constant for ip-based endpoints *)
Definition netBufferSize : Z := 512.
Definition netConnectTimeout : time.Duration := 10 * time.Second.
Definition netReconnectPeriod : time.Duration := 2 * time.Second.
Definition netReadTimeout : time.Duration := 60 * time.Second.
Definition netWriteTimeout : time.Duration := 10 * time.Second.

(** ** Version *)

(** [type Version int] *)
Definition Version := Z.

(** The value of [iota] in the [n]-th line of a constant block. *)
Definition iota (n : nat) : Z := Z.of_nat n.

(** V2 wrap outgoing messages in v2 frames. *)
Definition V2 : Version := iota 0.
(** V1 wrap outgoing messages in v1 frames. *)
Definition V1 : Version := iota 1.

(** The zero value of an integer type. *)
Definition zeroVersion : Version := 0.

(** ** Configuration *)

(** Go's [error] values, identified by their message. *)
Definition error := string.

(** The value an [EndpointConf.init()] returns.  [NewNode] inspects it
    with two type assertions and asks a single-channel endpoint for its
    label; [typeName] is what [%T] prints. *)
Record Endpoint := {
  typeName : string;
  isChannelAccepter : bool;  (* tp.(endpointChannelAccepter) succeeds *)
  isChannelSingle : bool;    (* tp.(endpointChannelSingle) succeeds *)
  Label : string;
}.

(** [EndpointConf] is an interface with the one method
    [init() (Endpoint, error)]. *)
Record EndpointConf := { init : error + Endpoint }.

(** Modelled from the spec: the [SignatureKey] type is declared outside
    node.go; a key is a sequence of bytes. *)
Definition SignatureKey := list N.

(** Modelled from the spec: the [Dialect] type is declared outside node.go;
    the node only depends on whether it defines HEARTBEAT. *)
Record DialectT := { definesHeartbeat : bool }.

(** NodeConf allows to configure a Node. *)
Record NodeConf := {
  Endpoints : list EndpointConf;
  Dialect : option DialectT;
  InSignatureKey : option SignatureKey;
  OutVersion : Version;
  OutSystemId : N;
  OutComponentId : N;
  OutSignatureKey : option SignatureKey;
  HeartbeatDisable : bool;
  HeartbeatPeriod : time.Duration;
  HeartbeatSystemType : Z;
}.

(** The zero value of [NodeConf]: what a composite literal leaves in the
    fields it does not set. *)
Definition zeroNodeConf : NodeConf := {|
  Endpoints := [];
  Dialect := None;
  InSignatureKey := None;
  OutVersion := zeroVersion;
  OutSystemId := 0%N;
  OutComponentId := 0%N;
  OutSignatureKey := None;
  HeartbeatDisable := false;
  HeartbeatPeriod := 0;
  HeartbeatSystemType := 0;
|}.

Definition setOutComponentId (v : N) (c : NodeConf) : NodeConf := {|
  Endpoints := Endpoints c; Dialect := Dialect c;
  InSignatureKey := InSignatureKey c; OutVersion := OutVersion c;
  OutSystemId := OutSystemId c; OutComponentId := v;
  OutSignatureKey := OutSignatureKey c;
  HeartbeatDisable := HeartbeatDisable c;
  HeartbeatPeriod := HeartbeatPeriod c;
  HeartbeatSystemType := HeartbeatSystemType c |}.

Definition setHeartbeatPeriod (v : time.Duration) (c : NodeConf) : NodeConf := {|
  Endpoints := Endpoints c; Dialect := Dialect c;
  InSignatureKey := InSignatureKey c; OutVersion := OutVersion c;
  OutSystemId := OutSystemId c; OutComponentId := OutComponentId c;
  OutSignatureKey := OutSignatureKey c;
  HeartbeatDisable := HeartbeatDisable c;
  HeartbeatPeriod := v;
  HeartbeatSystemType := HeartbeatSystemType c |}.

Definition setHeartbeatSystemType (v : Z) (c : NodeConf) : NodeConf := {|
  Endpoints := Endpoints c; Dialect := Dialect c;
  InSignatureKey := InSignatureKey c; OutVersion := OutVersion c;
  OutSystemId := OutSystemId c; OutComponentId := OutComponentId c;
  OutSignatureKey := OutSignatureKey c;
  HeartbeatDisable := HeartbeatDisable c;
  HeartbeatPeriod := HeartbeatPeriod c;
  HeartbeatSystemType := v |}.

(** ** The node *)

(** Heap addresses of [*Channel], [*channelAccepter] and [*nodeHeartbeat]. *)
Abbreviation Channel := positive (only parsing).
Abbreviation Accepter := positive (only parsing).
Abbreviation Heartbeat := positive (only parsing).

(** The fields of [Node] that hold data.  Its synchronisation objects
    ([wg], [writeDone], [eventChan], [channelsMutex]) are shared with the
    other goroutines and live in the [World]. *)
Record Node := {
  conf : NodeConf;
  channelAccepters : gset Accepter;
  channels : gset Channel;
  nodeHeartbeat : option Heartbeat;
}.

Definition setChannelAccepters (s : gset Accepter) (n : Node) : Node :=
  {| conf := conf n; channelAccepters := s; channels := channels n;
     nodeHeartbeat := nodeHeartbeat n |}.
Definition setChannels (s : gset Channel) (n : Node) : Node :=
  {| conf := conf n; channelAccepters := channelAccepters n; channels := s;
     nodeHeartbeat := nodeHeartbeat n |}.
Definition setNodeHeartbeat (h : option Heartbeat) (n : Node) : Node :=
  {| conf := conf n; channelAccepters := channelAccepters n;
     channels := channels n; nodeHeartbeat := h |}.

(** Go iterates over a map in an order it does not specify: [range] may
    visit the keys in any order, each exactly once. *)
Record MapOrder := {
  rangeOrder :> gset positive → list positive;
  rangeOrder_perm : ∀ s, rangeOrder s ≡ₚ elements s;
}.

Definition elementsOrder : MapOrder :=
  {| rangeOrder := elements; rangeOrder_perm := λ s, reflexivity _ |}.

Definition reverseOrder : MapOrder :=
  {| rangeOrder := λ s, reverse (elements s);
     rangeOrder_perm := λ s, reverse_Permutation (elements s) |}.

(** ** Example configurations *)

Module Examples.

(** [EndpointSerial{"/dev/ttyUSB0:57600"}] on a machine that has the device:
    a single-channel endpoint. *)
Definition serial : EndpointConf :=
  {| init := inr {| typeName := "*gomavlib.endpointSerial";
                    isChannelAccepter := false; isChannelSingle := true;
                    Label := "serial" |} |}.

(** A listening endpoint: a channel accepter. *)
Definition tcpServer : EndpointConf :=
  {| init := inr {| typeName := "*gomavlib.endpointServer";
                    isChannelAccepter := true; isChannelSingle := false;
                    Label := "tcp" |} |}.

(** The serial endpoint on a machine that lacks the device. *)
Definition serialMissing : EndpointConf :=
  {| init := inl "open /dev/ttyUSB0: no such file or directory"%string |}.

(** An endpoint whose [init] succeeds with a value that implements neither
    [endpointChannelAccepter] nor [endpointChannelSingle]. *)
Definition bare : EndpointConf :=
  {| init := inr {| typeName := "*gomavlib.endpointBare";
                    isChannelAccepter := false; isChannelSingle := false;
                    Label := "" |} |}.

(** The configuration of the package example, with the given endpoints:
    a dialect that defines HEARTBEAT, [OutSystemId: 10], the rest unset. *)
Definition nodeConf (endpoints : list EndpointConf) : NodeConf :=
  {| Endpoints := endpoints;
     Dialect := Some {| definesHeartbeat := true |};
     InSignatureKey := None;
     OutVersion := zeroVersion;
     OutSystemId := 10%N;
     OutComponentId := 0%N;
     OutSignatureKey := None;
     HeartbeatDisable := false;
     HeartbeatPeriod := 0;
     HeartbeatSystemType := 0 |}.

(** A node with channels 1 and 3, accepter 2 and heartbeat 4. *)
Definition node : Node :=
  {| conf := nodeConf [serial; tcpServer; serial];
     channelAccepters := {[2%positive]};
     channels := {[1%positive; 3%positive]};
     nodeHeartbeat := Some 4%positive |}.

(** What the [init] of the serial endpoint returns. *)
Definition serialEndpoint : Endpoint :=
  {| typeName := "*gomavlib.endpointSerial";
     isChannelAccepter := false; isChannelSingle := true;
     Label := "serial" |}.

(** A configuration that asks for signed V1 frames. *)
Definition signedV1Conf : NodeConf :=
  {| Endpoints := [serial];
     Dialect := None;
     InSignatureKey := None;
     OutVersion := V1;
     OutSystemId := 10%N;
     OutComponentId := 0%N;
     OutSignatureKey := Some [97; 98; 99; 100; 101; 102]%N;
     HeartbeatDisable := false;
     HeartbeatPeriod := 0;
     HeartbeatSystemType := 0 |}.

End Examples.

(** ** The world a node runs in *)

(** A goroutine-backed object (channel, accepter, heartbeat) has been
    allocated, has had [start()] called, or has had [close()] called. *)
Inductive TaskState := Created | Started | Closed.

Global Instance TaskState_eq_dec : EqDecision TaskState.
Proof. solve_decision. Defined.

Section Runtime.

(** [what interface{}]: the write primitives accept any value. *)
Context {What : Type}.

(** The operations of the calling goroutine that other goroutines can
    observe, in program order. *)
Inductive Op :=
| OpLock                                   (* n.channelsMutex.Lock() *)
| OpUnlock                                 (* n.channelsMutex.Unlock() *)
| OpSend (ch : Channel) (what : What)      (* ch.writeChan <- what *)
| OpRecvDone                               (* <-n.writeDone *)
| OpNewChannel (ch : Channel) (label : string)
| OpNewAccepter (ca : Accepter)
| OpNewHeartbeat (h : Heartbeat)
| OpStart (t : positive)                   (* t.start() *)
| OpClose (t : positive)                   (* t.close() *)
| OpDrainEvents                            (* go func() { for range n.Events() {} }() *)
| OpWgWait                                 (* n.wg.Wait() *)
| OpCloseEvents.                           (* close(n.eventChan) *)

Record World := {
  (* n.channelsMutex is locked *)
  channelsMutex : bool;
  (* what has been sent on each channel's writeChan, oldest first *)
  writeChan : gmap Channel (list What);
  (* completion tokens still to be received from n.writeDone *)
  writeDone : nat;
  (* close(n.eventChan) has run *)
  eventChanClosed : bool;
  (* the objects allocated so far and the state of their goroutines *)
  tasks : gmap positive TaskState;
  (* the operations performed so far *)
  log : list Op;
}.

Definition setMutex (b : bool) (w : World) : World :=
  {| channelsMutex := b; writeChan := writeChan w; writeDone := writeDone w;
     eventChanClosed := eventChanClosed w; tasks := tasks w; log := log w |}.
Definition setWriteChan (q : gmap Channel (list What)) (w : World) : World :=
  {| channelsMutex := channelsMutex w; writeChan := q; writeDone := writeDone w;
     eventChanClosed := eventChanClosed w; tasks := tasks w; log := log w |}.
Definition setWriteDone (k : nat) (w : World) : World :=
  {| channelsMutex := channelsMutex w; writeChan := writeChan w; writeDone := k;
     eventChanClosed := eventChanClosed w; tasks := tasks w; log := log w |}.
Definition setEventChanClosed (b : bool) (w : World) : World :=
  {| channelsMutex := channelsMutex w; writeChan := writeChan w;
     writeDone := writeDone w; eventChanClosed := b; tasks := tasks w;
     log := log w |}.
Definition setTasks (t : gmap positive TaskState) (w : World) : World :=
  {| channelsMutex := channelsMutex w; writeChan := writeChan w;
     writeDone := writeDone w; eventChanClosed := eventChanClosed w;
     tasks := t; log := log w |}.
Definition record (o : Op) (w : World) : World :=
  {| channelsMutex := channelsMutex w; writeChan := writeChan w;
     writeDone := writeDone w; eventChanClosed := eventChanClosed w;
     tasks := tasks w; log := log w ++ [o] |}.

(** The items waiting in (or already taken from) the write queue of [ch]. *)
Definition queue (w : World) (ch : Channel) : list What :=
  default [] (writeChan w !! ch).

(** ** Calls and function bodies *)

(** How a call ends: it returns, it panics, or it never returns because the
    goroutine blocks on an operation nobody will complete. *)
Inductive outcome (A : Type) :=
| Done (a : A) (w : World)
| Panicked (v : string) (w : World)
| Blocked (w : World).
Global Arguments Done {A} a w.
Global Arguments Panicked {A} v w.
Global Arguments Blocked {A} w.

Definition Call (A : Type) := World → outcome A.

(** Inside a body: fall through to the next statement, [return r], or stop.
    [ds] is the stack of deferred calls, the most recent first. *)
Inductive flow (R A : Type) :=
| Next (a : A) (w : World) (ds : list (Call unit))
| Return (r : R) (w : World) (ds : list (Call unit))
| Panic (v : string) (w : World) (ds : list (Call unit))
| Block (w : World).
Global Arguments Next {R A} a w ds.
Global Arguments Return {R A} r w ds.
Global Arguments Panic {R A} v w ds.
Global Arguments Block {R A} w.

Definition Body (R A : Type) := World → list (Call unit) → flow R A.

Global Instance Body_ret {R} : MRet (Body R) := λ A a w ds, Next a w ds.
Global Instance Body_bind {R} : MBind (Body R) := λ A B f m w ds,
  match m w ds with
  | Next a w' ds' => f a w' ds'
  | Return r w' ds' => Return r w' ds'
  | Panic v w' ds' => Panic v w' ds'
  | Block w' => Block w'
  end.

(** [return r] *)
Definition return_ {R A} (r : R) : Body R A := λ w ds, Return r w ds.
(** [panic(v)] *)
Definition panic {R A} (v : string) : Body R A := λ w ds, Panic v w ds.
(** [defer f()] *)
Definition defer {R} (f : Call unit) : Body R unit := λ w ds, Next () w (f :: ds).
(** a call statement [f()] *)
Definition call {R A} (f : Call A) : Body R A := λ w ds,
  match f w with
  | Done a w' => Next a w' ds
  | Panicked v w' => Panic v w' ds
  | Blocked w' => Block w'
  end.

(** Run the deferred calls, last deferred first.  A deferred call that
    panics does not keep the earlier ones from running. *)
Fixpoint runDeferred (ds : list (Call unit)) (w : World) : outcome unit :=
  match ds with
  | [] => Done () w
  | d :: ds' =>
      match d w with
      | Done _ w' => runDeferred ds' w'
      | Panicked v w' =>
          match runDeferred ds' w' with
          | Done _ w'' => Panicked v w''
          | o => o
          end
      | Blocked w' => Blocked w'
      end
  end.

(** A function: run the body, then the deferred calls, then hand the
    result (or the panic) to the caller. *)
Definition func {R} (body : Body R R) : Call R := λ w,
  match body w [] with
  | Next r w' ds | Return r w' ds =>
      match runDeferred ds w' with
      | Done _ w'' => Done r w''
      | Panicked v w'' => Panicked v w''
      | Blocked w'' => Blocked w''
      end
  | Panic v w' ds =>
      match runDeferred ds w' with
      | Done _ w'' => Panicked v w''
      | Panicked v' w'' => Panicked v' w''
      | Blocked w'' => Blocked w''
      end
  | Block w' => Blocked w'
  end.

(** [for k := range l { f k }] *)
Fixpoint range_ {R K} (l : list K) (f : K → Body R unit) : Body R unit :=
  match l with
  | [] => mret ()
  | k :: l' => f k ;; range_ l' f
  end.

(** [for k := range l { s = f k s }], a loop that updates a local. *)
Fixpoint rangeWith {R K S} (l : list K) (s : S) (f : K → S → Body R S) : Body R S :=
  match l with
  | [] => mret s
  | k :: l' => s' ← f k s; rangeWith l' s' f
  end.

(** ** Primitive operations *)

Definition Lock : Call unit := λ w,
  if channelsMutex w then Blocked w
  else Done () (record OpLock (setMutex true w)).

(** Unlocking a mutex that is not locked is a fatal runtime error. *)
Definition Unlock : Call unit := λ w,
  if channelsMutex w then Done () (record OpUnlock (setMutex false w))
  else Panicked "sync: unlock of unlocked mutex" w.

(** Modelled from the spec: the write task of a channel (outside node.go)
    consumes each item of its write queue and, after each write, sends a
    completion token back to the node, also when the write fails.
    [ch.writeChan <- what] therefore appends to the queue of [ch] and makes
    one more token due on [n.writeDone]. *)
Definition sent (ch : Channel) (what : What) (w : World) : World :=
  record (OpSend ch what)
    (setWriteDone (S (writeDone w))
      (setWriteChan (<[ch := queue w ch ++ [what]]> (writeChan w)) w)).

Definition send (ch : Channel) (what : What) : Call unit := λ w,
  Done () (sent ch what w).

(** [<-n.writeDone]: takes one token; with none due it waits for ever. *)
Definition recvDone : Call unit := λ w,
  match writeDone w with
  | O => Blocked w
  | S k => Done () (record OpRecvDone (setWriteDone k w))
  end.

(** [close(n.eventChan)]: closing a closed channel panics. *)
Definition closeEventChan : Call unit := λ w,
  if eventChanClosed w then Panicked "close of closed channel" w
  else Done () (record OpCloseEvents (setEventChanClosed true w)).

(** [go func() { for range n.Events() {} }()] *)
Definition goDrainEvents : Call unit := λ w, Done () (record OpDrainEvents w).

(** Modelled from the spec: [newChannel], [newChannelAccepter] and
    [newNodeHeartbeat] (outside node.go) allocate an object whose goroutines
    are not yet running. *)
Definition alloc (mk : positive → Op) : Call positive := λ w,
  let t := fresh (dom (tasks w)) in
  Done t (record (mk t) (setTasks (<[t := Created]> (tasks w)) w)).

Definition newChannel (n : Node) (e : Endpoint) (label : string)
    (rwc : Endpoint) : Call Channel :=
  alloc (λ ch, OpNewChannel ch label).

Definition newChannelAccepter (n : Node) (eca : Endpoint) : Call Accepter :=
  alloc OpNewAccepter.

(** Modelled from the spec: the heartbeat emitter (outside node.go) is
    suppressible and is disabled when the dialect does not define
    HEARTBEAT; [newNodeHeartbeat] then returns nil. *)
Definition newNodeHeartbeat (n : Node) : Call (option Heartbeat) :=
  if HeartbeatDisable (conf n) then λ w, Done None w
  else match Dialect (conf n) with
       | Some d =>
           if definesHeartbeat d then λ w,
             match alloc OpNewHeartbeat w with
             | Done h w' => Done (Some h) w'
             | Panicked v w' => Panicked v w'
             | Blocked w' => Blocked w'
             end
           else λ w, Done None w
       | None => λ w, Done None w
       end.

(** Modelled from the spec: the [start()] and [close()] methods of
    channels, accepters and the heartbeat (outside node.go) launch the
    goroutines of the object, and signal them to release their transport
    and exit. *)
Definition started (t : positive) (w : World) : World :=
  record (OpStart t) (setTasks (<[t := Started]> (tasks w)) w).

Definition closed (t : positive) (w : World) : World :=
  record (OpClose t) (setTasks (<[t := Closed]> (tasks w)) w).

Definition start_ (t : positive) : Call unit := λ w, Done () (started t w).

Definition close_ (t : positive) : Call unit := λ w, Done () (closed t w).

(** Modelled from the spec: every goroutine of a started object is
    registered on [n.wg] (outside node.go) and leaves it once signalled to
    exit.  [n.wg.Wait()] returns when none is left running; a goroutine
    that was never told to stop keeps it waiting. *)
Definition running (w : World) : Prop :=
  map_Exists (λ _ s, s = Started) (tasks w).

Definition wgWait : Call unit := λ w,
  if decide (running w) then Blocked w else Done () (record OpWgWait w).

(** ** Node operations (node.go) *)

(** The order in which this run of the program ranges over its maps. *)
Variable order : MapOrder.

Definition createChannel (n : Node) (e : Endpoint) (label : string)
    (rwc : Endpoint) : Call (Channel * Node) :=
  func (
    call Lock ;;
    defer Unlock ;;
    ch ← call (newChannel n e label rwc);
    let n := setChannels ({[ch]} ∪ channels n) n in
    return_ (ch, n)).

Definition start (n : Node) : Call unit :=
  func (
    match nodeHeartbeat n with
    | Some h => call (start_ h)
    | None => mret ()
    end ;;
    (* start channels before channelAccepters
       since channelAccepters can create new channels *)
    range_ (order (channels n)) (λ ch, call (start_ ch)) ;;
    range_ (order (channelAccepters n)) (λ ca, call (start_ ca))).

(** [n := &Node{...}]: a new node comes with an unlocked mutex and with
    fresh [writeDone] and [eventChan] channels. *)
Definition makeNode (conf : NodeConf) : Call Node := λ w,
  Done {| conf := conf; channelAccepters := ∅; channels := ∅;
          nodeHeartbeat := None |}
       (setMutex false (setWriteDone 0 (setEventChanClosed false w))).

(** The body of the loop over [conf.Endpoints]. *)
Definition NewNode_endpoint (tconf : EndpointConf) (n : Node)
    : Body (option Node * option error) Node :=
  match init tconf with
  | inl err =>
      range_ (order (channels n)) (λ ca, call (close_ ca)) ;;
      range_ (order (channelAccepters n)) (λ ca, call (close_ ca)) ;;
      return_ (None, Some err)
  | inr tp =>
      if isChannelAccepter tp then
        ca ← call (newChannelAccepter n tp);
        mret (setChannelAccepters ({[ca]} ∪ channelAccepters n) n)
      else if isChannelSingle tp then
        r ← call (createChannel n tp (Label tp) tp);
        mret (snd r)
      else
        panic ("endpoint " +:+ typeName tp +:+ " does not implement any interface")
  end.

(** NewNode allocates a Node. See NodeConf for the options. *)
Definition NewNode (conf : NodeConf) : Call (option Node * option error) :=
  func (
    (if (OutSystemId conf <? 1)%N
     then return_ (None, Some "SystemId must be >= 1"%string)
     else mret ()) ;;
    let conf := if (OutComponentId conf <? 1)%N
                then setOutComponentId 1 conf else conf in
    (if (length (Endpoints conf) =? 0)%nat
     then return_ (None, Some "at least one endpoint must be provided"%string)
     else mret ()) ;;
    (if bool_decide (OutSignatureKey conf ≠ None)
        && bool_decide (OutVersion conf ≠ V2)
     then return_ (None, Some "OutSignatureKey requires V2 frames"%string)
     else mret ()) ;;
    let conf := if HeartbeatPeriod conf =? 0
                then setHeartbeatPeriod (5 * time.Second) conf else conf in
    let conf := if HeartbeatSystemType conf =? 0
                then setHeartbeatSystemType 6 conf (* MAV_TYPE_GCS *)
                else conf in
    n ← call (makeNode conf);
    n ← rangeWith (Endpoints conf) n NewNode_endpoint;
    h ← call (newNodeHeartbeat n);
    let n := setNodeHeartbeat h n in
    call (start n) ;;
    return_ (Some n, None)).

(** Close stops node operations and wait for all routines to return. *)
Definition Close (n : Node) : Call unit :=
  func (
    match nodeHeartbeat n with
    | Some h => call (close_ h)
    | None => mret ()
    end ;;
    range_ (order (channelAccepters n)) (λ ca, call (close_ ca)) ;;
    call (func (
      call Lock ;;
      defer Unlock ;;
      range_ (order (channels n)) (λ ch, call (close_ ch)))) ;;
    (* consume events (in case user is not calling Events()) such that we
       can call close(n.eventChan) *)
    call goDrainEvents ;;
    call wgWait ;;
    (* close queue after ensuring no one will write to it *)
    call closeEventChan).

Definition writeTo (n : Node) (channel : Channel) (what : What) : Call unit :=
  func (
    call Lock ;;
    defer Unlock ;;
    (if negb (bool_decide (channel ∈ channels n))
     then return_ ()
     else mret ()) ;;
    (* route to channels
       wait for responses (otherwise endpoints can be removed before writing) *)
    call (send channel what) ;;
    call recvDone).

Definition writeAll (n : Node) (what : What) : Call unit :=
  func (
    call Lock ;;
    defer Unlock ;;
    range_ (order (channels n)) (λ channel,
      call (send channel what) ;;
      defer recvDone)).

Definition writeExcept (n : Node) (exceptChannel : Channel) (what : What)
    : Call unit :=
  func (
    call Lock ;;
    defer Unlock ;;
    range_ (order (channels n)) (λ channel,
      if bool_decide (channel ≠ exceptChannel) then
        call (send channel what) ;;
        defer recvDone
      else mret ())).

(** WriteMessageTo writes a message to given channel. *)
Definition WriteMessageTo := writeTo.
(** WriteMessageAll writes a message to all channels. *)
Definition WriteMessageAll := writeAll.
(** WriteMessageExcept writes a message to all channels except specified channel. *)
Definition WriteMessageExcept := writeExcept.
(** WriteFrameTo writes a frame to given channel. *)
Definition WriteFrameTo := writeTo.
(** WriteFrameAll writes a frame to all channels. *)
Definition WriteFrameAll := writeAll.
(** WriteFrameExcept writes a frame to all channels except specified channel. *)
Definition WriteFrameExcept := writeExcept.

(** The world of a program that has not created anything yet. *)
Definition emptyWorld : World :=
  {| channelsMutex := false; writeChan := ∅; writeDone := 0;
     eventChanClosed := false; tasks := ∅; log := [] |}.

(** A world in which the objects 1 to 4 have been started and nothing has
    been written yet. *)
Definition runningWorld : World :=
  {| channelsMutex := false; writeChan := ∅; writeDone := 0;
     eventChanClosed := false;
     tasks := {[ 1%positive := Started; 2%positive := Started;
                 3%positive := Started; 4%positive := Started ]};
     log := [] |}.

(** ** Definitions used to state the properties *)

(** The world after the calls [mark t], for the [t] of [l] in turn. *)
Definition marksAll (mark : positive → World → World) (l : list positive)
    (w : World) : World :=
  foldl (λ w t, mark t w) w l.

Definition sends (what : What) (l : list Channel) (w : World) : World :=
  foldl (λ w ch, sent ch what w) w l.

Definition closedAll (l : list positive) (w : World) : World :=
  foldl (λ w t, closed t w) w l.

Definition startedAll (l : list positive) (w : World) : World :=
  foldl (λ w t, started t w) w l.

(** The world after the heartbeat, the accepters and the channels of [n]
    have been closed, up to the unlock of the channels mutex. *)
Definition closedNode (n : Node) (w : World) : World :=
  let w1 := match nodeHeartbeat n with Some h => closed h w | None => w end in
  let w2 := closedAll (order (channelAccepters n)) w1 in
  record OpUnlock (setMutex false
    (closedAll (order (channels n)) (record OpLock (setMutex true w2)))).

(** An endpoint that initialises and implements one of the two interfaces
    [NewNode] knows about. *)
Definition supported (tp : Endpoint) : bool :=
  isChannelAccepter tp || isChannelSingle tp.

Definition usable (tconf : EndpointConf) : Prop :=
  ∃ tp, init tconf = inr tp ∧ supported tp = true.

(** [tconf] is the first endpoint of [l] that is not usable. *)
Definition firstAfterUsable (l : list EndpointConf) (tconf : EndpointConf) : Prop :=
  ∃ pre post, l = pre ++ tconf :: post ∧ Forall usable pre.

(** The configuration errors [NewNode] checks before it builds anything. *)
Definition rejected (conf : NodeConf) : Prop :=
  (OutSystemId conf < 1)%N
  ∨ Endpoints conf = []
  ∨ (OutSignatureKey conf ≠ None ∧ OutVersion conf ≠ V2).

(** The node under construction owns exactly the objects allocated since
    [w0], and none of them has been started yet. *)
Definition owns (w0 : World) (n : Node) (w : World) : Prop :=
  ∀ t, if decide (t ∈ channels n ∪ channelAccepters n)
       then tasks w0 !! t = None ∧ tasks w !! t = Some Created
       else tasks w !! t = tasks w0 !! t.

(** Every object of [w] is as in [w0], or is new and has been closed. *)
Definition released (w0 w : World) : Prop :=
  ∀ t, tasks w !! t = tasks w0 !! t
       ∨ (tasks w0 !! t = None ∧ tasks w !! t = Some Closed).

(** The configuration [NewNode] stores: the given one with the three
    defaults filled in. *)
Definition withDefaults (conf : NodeConf) : NodeConf :=
  let conf := if (OutComponentId conf <? 1)%N
              then setOutComponentId 1 conf else conf in
  let conf := if HeartbeatPeriod conf =? 0
              then setHeartbeatPeriod (5 * time.Second) conf else conf in
  if HeartbeatSystemType conf =? 0
  then setHeartbeatSystemType 6 conf else conf.

(** What [NewNode] does once the configuration has passed the checks. *)
Definition NewNode_build (conf : NodeConf) : Call (option Node * option error) :=
  func (
    n ← call (makeNode conf);
    n ← rangeWith (Endpoints conf) n NewNode_endpoint;
    h ← call (newNodeHeartbeat n);
    let n := setNodeHeartbeat h n in
    call (start n) ;;
    return_ (Some n, None)).

(** How [NewNode] treats an endpoint: as a channel accepter when its
    [init] succeeds with a value that implements [endpointChannelAccepter]
    (the first type assertion), as a single channel when it implements
    [endpointChannelSingle] only. *)
Definition initsAccepter (tconf : EndpointConf) : bool :=
  match init tconf with
  | inr tp => isChannelAccepter tp
  | inl _ => false
  end.

Definition initsSingle (tconf : EndpointConf) : bool :=
  match init tconf with
  | inr tp => negb (isChannelAccepter tp) && isChannelSingle tp
  | inl _ => false
  end.

(** * Properties *)

(** Closes a goal from [H : x ∈ [y1; ...; yn]] when [x] differs from every
    [yi] by its constructor. *)
Ltac not_listed H :=
  repeat (apply elem_of_cons in H as [H|H]; [discriminate H |]);
  by apply elem_of_nil in H.

(** ** Loops of calls that always return *)

Lemma range_calls {R K} (g : K → Call unit) (step : K → World → World)
    (l : list K) (w : World) (ds : list (Call unit)) :
  (∀ k w, g k w = Done () (step k w)) →
  range_ (R:=R) l (λ k, call (g k)) w ds
  = Next () (foldl (λ w k, step k w) w l) ds.
Proof.
  intros Hg. revert w. induction l as [|k l IH]; intros w; simpl.
  - reflexivity.
  - unfold mbind, Body_bind, call at 1. rewrite Hg. apply IH.
Qed.

Lemma in_order (s : gset positive) (t : positive) : t ∈ order s ↔ t ∈ s.
Proof. rewrite (rangeOrder_perm order s). apply elem_of_elements. Qed.

Lemma NoDup_order (s : gset positive) : NoDup (order s).
Proof. rewrite (rangeOrder_perm order s). apply NoDup_elements. Qed.

Lemma length_order (s : gset positive) : length (order s) = size s.
Proof. rewrite (rangeOrder_perm order s). reflexivity. Qed.

(** ** The world after a run of [close()] or [start()] calls *)

Section Marks.
Variable mark : positive → World → World.
Variable st : TaskState.
Variable op : positive → Op.
Hypothesis mark_tasks : ∀ t w, tasks (mark t w) = <[t := st]> (tasks w).
Hypothesis mark_log : ∀ t w, log (mark t w) = log w ++ [op t].
Hypothesis mark_mutex : ∀ t w, channelsMutex (mark t w) = channelsMutex w.
Hypothesis mark_queue : ∀ t w, writeChan (mark t w) = writeChan w.
Hypothesis mark_done : ∀ t w, writeDone (mark t w) = writeDone w.
Hypothesis mark_events : ∀ t w, eventChanClosed (mark t w) = eventChanClosed w.

Lemma marks_tasks l w t :
  tasks (marksAll mark l w) !! t = if decide (t ∈ l) then Some st else tasks w !! t.
Proof.
  unfold marksAll. revert w. induction l as [|k l IH]; intros w; cbn [foldl].
  - destruct (decide (t ∈ [])) as [H|H]; [by apply elem_of_nil in H | done].
  - rewrite IH, mark_tasks. destruct (decide (t ∈ l)) as [Hl|Hl].
    + rewrite decide_True; [done | by right].
    + destruct (decide (t = k)) as [->|Hk].
      * rewrite lookup_insert_eq, decide_True; [done | by left].
      * rewrite lookup_insert_ne by done.
        rewrite decide_False; [done |]. rewrite elem_of_cons. tauto.
Qed.

Lemma marks_log l w : log (marksAll mark l w) = log w ++ map op l.
Proof.
  unfold marksAll. revert w. induction l as [|k l IH]; intros w; simpl.
  - by rewrite app_nil_r.
  - by rewrite IH, mark_log, <- app_assoc.
Qed.

Lemma marks_sync l w :
  channelsMutex (marksAll mark l w) = channelsMutex w
  ∧ writeChan (marksAll mark l w) = writeChan w
  ∧ writeDone (marksAll mark l w) = writeDone w
  ∧ eventChanClosed (marksAll mark l w) = eventChanClosed w.
Proof.
  unfold marksAll. revert w. induction l as [|k l IH]; intros w; simpl; [done|].
  destruct (IH (mark k w)) as (-> & -> & -> & ->).
  by rewrite mark_mutex, mark_queue, mark_done, mark_events.
Qed.
End Marks.


(** ** The world after a fan-out of sends *)

Lemma queue_sent ch what w c :
  queue (sent ch what w) c
  = if decide (c = ch) then queue w ch ++ [what] else queue w c.
Proof.
  unfold queue at 1. cbn. destruct (decide (c = ch)) as [->|Hne].
  - by rewrite lookup_insert_eq.
  - by rewrite lookup_insert_ne.
Qed.

Lemma sends_queue what l w c :
  NoDup l →
  queue (sends what l w) c
  = if decide (c ∈ l) then queue w c ++ [what] else queue w c.
Proof.
  unfold sends. intros Hnd. revert w.
  induction Hnd as [|k l Hk Hnd IH]; intros w; cbn [foldl].
  - destruct (decide (c ∈ [])) as [H|H]; [by apply elem_of_nil in H | done].
  - rewrite IH, queue_sent.
    destruct (decide (c ∈ l)) as [Hl|Hl], (decide (c = k)) as [->|Hne];
      try done.
    + rewrite decide_True; [done | by right].
    + rewrite decide_True; [done | by left].
    + rewrite decide_False; [done |]. rewrite elem_of_cons. tauto.
Qed.

Lemma sends_log what l w :
  log (sends what l w) = log w ++ map (λ ch, OpSend ch what) l.
Proof.
  unfold sends. revert w. induction l as [|k l IH]; intros w; cbn [foldl map].
  - by rewrite app_nil_r.
  - rewrite IH. cbn. by rewrite <- app_assoc.
Qed.

Lemma sends_sync what l w :
  channelsMutex (sends what l w) = channelsMutex w
  ∧ writeDone (sends what l w) = (writeDone w + length l)%nat
  ∧ eventChanClosed (sends what l w) = eventChanClosed w
  ∧ tasks (sends what l w) = tasks w.
Proof.
  unfold sends. revert w. induction l as [|k l IH]; intros w; cbn [foldl length].
  - repeat split; lia.
  - destruct (IH (sent k what w)) as (-> & -> & -> & ->). cbn.
    repeat split; lia.
Qed.

(** A [range] loop whose body sends to the channels satisfying [P] and
    defers one receive from [writeDone] for each send. *)
Lemma range_fanout {R} (P : Channel → Prop) `{!∀ c, Decision (P c)}
    (f : Channel → Body R unit) (what : What) l w ds :
  (∀ c, f c = if bool_decide (P c)
              then call (send c what) ;; defer recvDone
              else mret ()) →
  range_ l f w ds
  = Next () (sends what (filter P l) w)
            (replicate (length (filter P l)) recvDone ++ ds).
Proof.
  intros Hf. revert w ds. induction l as [|k l IH]; intros w ds; cbn [range_].
  - reflexivity.
  - unfold mbind at 1, Body_bind at 1. rewrite Hf.
    destruct (decide (P k)) as [Hk|Hk].
    + rewrite bool_decide_eq_true_2 by done.
      rewrite filter_cons_True by done.
      unfold mbind, Body_bind, call, send, defer. cbn.
      rewrite IH. f_equal.
      change (recvDone :: ds) with ([recvDone] ++ ds).
      by rewrite app_assoc, <- replicate_cons_app.
    + rewrite bool_decide_eq_false_2 by done.
      rewrite filter_cons_False by done.
      unfold mret, Body_ret. apply IH.
Qed.

(** The deferred calls of a write primitive: [k] receives from
    [writeDone], then the unlock. *)
Lemma runDeferred_drain (k : nat) (w : World) :
  channelsMutex w = true → (k ≤ writeDone w)%nat →
  runDeferred (replicate k recvDone ++ [Unlock]) w
  = Done () {| channelsMutex := false;
               writeChan := writeChan w;
               writeDone := writeDone w - k;
               eventChanClosed := eventChanClosed w;
               tasks := tasks w;
               log := log w ++ replicate k OpRecvDone ++ [OpUnlock] |}.
Proof.
  revert w. induction k as [|k IH]; intros w Hm Hk; cbn.
  - unfold Unlock. rewrite Hm. unfold record, setMutex. cbn.
    by rewrite Nat.sub_0_r.
  - unfold recvDone at 1. destruct (writeDone w) as [|m] eqn:Hw; [lia|].
    rewrite IH; cbn; [| done | lia]. do 2 f_equal. by rewrite <- app_assoc.
Qed.


Lemma filter_all {A} (l : list A) : filter (λ _, True) l = l.
Proof.
  induction l as [|x l IH]; [done|].
  rewrite filter_cons_True by done. by rewrite IH.
Qed.

(** The common shape of [writeAll] and [writeExcept]: lock, defer the
    unlock, fan out to the channels satisfying [P]. *)
Lemma fanout_spec (P : Channel → Prop) `{!∀ c, Decision (P c)}
    (f : Channel → Body unit unit) (what : What) (n : Node) (w : World) :
  (∀ c, f c = if bool_decide (P c)
              then call (send c what) ;; defer recvDone
              else mret ()) →
  channelsMutex w = false →
  let l := filter P (order (channels n)) in
  ∃ w',
    func (call Lock ;; defer Unlock ;; range_ (order (channels n)) f) w
      = Done () w'
    ∧ log w' = log w ++ [OpLock] ++ map (λ ch, OpSend ch what) l
                     ++ replicate (length l) OpRecvDone ++ [OpUnlock]
    ∧ (∀ ch, queue w' ch = if decide (ch ∈ l) then queue w ch ++ [what]
                           else queue w ch)
    ∧ channelsMutex w' = false
    ∧ writeDone w' = writeDone w
    ∧ eventChanClosed w' = eventChanClosed w
    ∧ tasks w' = tasks w.
Proof.
  intros Hf Hm l.
  set (w1 := record OpLock (setMutex true w)).
  assert (Hnd : NoDup l) by apply NoDup_filter, NoDup_order.
  destruct (sends_sync what l w1) as (Hs1 & Hs2 & Hs3 & Hs4).
  eexists. split.
  - unfold func, mbind, Body_bind, call at 1, Lock, defer at 1.
    rewrite Hm. fold w1.
    rewrite (range_fanout P f what _ w1 [Unlock] Hf). fold l.
    rewrite runDeferred_drain; [reflexivity | by rewrite Hs1 | rewrite Hs2; lia].
  - cbn. rewrite sends_log, Hs2, Hs3, Hs4. subst w1. cbn.
    repeat split.
    + by rewrite <- !app_assoc.
    + intros ch. exact (sends_queue what l (record OpLock (setMutex true w)) ch Hnd).
    + lia.
Qed.

(** ** The write primitives *)

(** C2.  With the channels mutex free, [writeAll] returns, and what it did
    is: lock the channels mutex, send the item on the write queue of every
    registered channel (each exactly once, in the order of the range),
    receive one completion token per registered channel, and only then
    unlock.  Every registered channel has the item appended to its write
    queue, no other queue changes, and no completion token is left over. *)
Theorem writeAll_fanout (n : Node) (what : What) (w : World) :
  channelsMutex w = false →
  ∃ w',
    writeAll n what w = Done () w'
    ∧ log w' = log w ++ [OpLock]
                     ++ map (λ ch, OpSend ch what) (order (channels n))
                     ++ replicate (size (channels n)) OpRecvDone
                     ++ [OpUnlock]
    ∧ (∀ ch, ch ∈ channels n → queue w' ch = queue w ch ++ [what])
    ∧ (∀ ch, ch ∉ channels n → queue w' ch = queue w ch)
    ∧ channelsMutex w' = false
    ∧ writeDone w' = writeDone w.
Proof.
  intros Hm.
  destruct (fanout_spec (λ _, True)
              (λ channel, call (send channel what) ;; defer recvDone)
              what n w) as (w' & Hrun & Hlog & Hq & Hm' & Hd & _ & _);
    [done | done |].
  rewrite filter_all in Hlog, Hq. rewrite length_order in Hlog.
  exists w'. repeat split; try done.
  - intros ch Hch. rewrite Hq, decide_True; [done | by apply in_order].
  - intros ch Hch. rewrite Hq, decide_False; [done | by rewrite in_order].
Qed.

(** C5.  With the channels mutex free, [writeExcept] returns, and what it
    did is: lock the channels mutex, send the item on the write queue of
    every registered channel other than [exceptChannel], receive one
    completion token per send, and only then unlock.  The write queue of
    [exceptChannel] is unchanged and nothing is ever sent to it. *)
Theorem writeExcept_fanout (n : Node) (exceptChannel : Channel) (what : What)
    (w : World) :
  channelsMutex w = false →
  let l := filter (λ ch, ch ≠ exceptChannel) (order (channels n)) in
  ∃ w',
    writeExcept n exceptChannel what w = Done () w'
    ∧ log w' = log w ++ [OpLock] ++ map (λ ch, OpSend ch what) l
                     ++ replicate (length l) OpRecvDone ++ [OpUnlock]
    ∧ (∀ ch, ch ∈ channels n → ch ≠ exceptChannel →
             ch ∈ l ∧ queue w' ch = queue w ch ++ [what])
    ∧ (∀ ch, ch ∉ channels n → queue w' ch = queue w ch)
    ∧ (exceptChannel ∉ l)
    ∧ queue w' exceptChannel = queue w exceptChannel
    ∧ channelsMutex w' = false
    ∧ writeDone w' = writeDone w.
Proof.
  intros Hm l.
  destruct (fanout_spec (λ ch, ch ≠ exceptChannel)
              (λ channel,
                 if bool_decide (channel ≠ exceptChannel)
                 then call (send channel what) ;; defer recvDone
                 else mret ())
              what n w) as (w' & Hrun & Hlog & Hq & Hm' & Hd & _ & _);
    [done | done |].
  fold l in Hlog, Hq.
  assert (Hl : ∀ ch, ch ∈ l ↔ ch ≠ exceptChannel ∧ ch ∈ channels n).
  { intros ch. unfold l. by rewrite list_elem_of_filter, in_order. }
  exists w'. repeat split; try done.
  - by apply Hl.
  - rewrite Hq, decide_True; [done | by apply Hl].
  - intros ch Hch. rewrite Hq, decide_False; [done |]. rewrite Hl. tauto.
  - rewrite Hl. tauto.
  - rewrite Hq, decide_False; [done |]. rewrite Hl. tauto.
Qed.


(** C4.  With the channels mutex free and [channel] registered, [writeTo]
    returns, and what it did is: lock, send the item on the write queue of
    [channel], receive one completion token, unlock.  The item is appended
    to the write queue of [channel]; the write queue of every other channel
    is unchanged. *)
Theorem writeTo_registered (n : Node) (channel : Channel) (what : What)
    (w : World) :
  channel ∈ channels n →
  channelsMutex w = false →
  ∃ w',
    writeTo n channel what w = Done () w'
    ∧ log w' = log w ++ [OpLock; OpSend channel what; OpRecvDone; OpUnlock]
    ∧ queue w' channel = queue w channel ++ [what]
    ∧ (∀ ch, ch ≠ channel → writeChan w' !! ch = writeChan w !! ch)
    ∧ channelsMutex w' = false
    ∧ writeDone w' = writeDone w.
Proof.
  intros Hin Hm. eexists. split.
  - unfold writeTo, func, mbind, Body_bind, call, defer, Lock, send, recvDone.
    rewrite Hm, bool_decide_eq_true_2 by done. cbn. reflexivity.
  - cbn. rewrite <- !app_assoc. repeat split; try done.
    + unfold queue at 1. cbn. by rewrite lookup_insert_eq.
    + intros ch Hne. by rewrite lookup_insert_ne.
Qed.

(** C9.  With the channels mutex free and [channel] not registered,
    [writeTo] returns having only locked and unlocked the mutex: nothing is
    sent, no completion token is received, and the write queues, the tokens
    due, the mutex, the event stream and the tasks are as they were. *)
Theorem writeTo_unregistered (n : Node) (channel : Channel) (what : What)
    (w : World) :
  channel ∉ channels n →
  channelsMutex w = false →
  ∃ w',
    writeTo n channel what w = Done () w'
    ∧ log w' = log w ++ [OpLock; OpUnlock]
    ∧ writeChan w' = writeChan w
    ∧ writeDone w' = writeDone w
    ∧ channelsMutex w' = channelsMutex w
    ∧ eventChanClosed w' = eventChanClosed w
    ∧ tasks w' = tasks w.
Proof.
  intros Hin Hm. eexists. split.
  - unfold writeTo, func, mbind, Body_bind, call, defer, Lock, return_.
    rewrite Hm, bool_decide_eq_false_2 by done. cbn. reflexivity.
  - cbn. rewrite <- !app_assoc. by rewrite Hm.
Qed.


(** ** Stepping through a body *)

Lemma bind_next {R A B} (m : Body R A) (f : A → Body R B) w ds a w' ds' :
  m w ds = Next a w' ds' → (m ≫= f) w ds = f a w' ds'.
Proof. intros H. unfold mbind, Body_bind. by rewrite H. Qed.

Lemma bind_return {R A B} (m : Body R A) (f : A → Body R B) w ds r w' ds' :
  m w ds = Return r w' ds' → (m ≫= f) w ds = Return r w' ds'.
Proof. intros H. unfold mbind, Body_bind. by rewrite H. Qed.

Lemma bind_panic {R A B} (m : Body R A) (f : A → Body R B) w ds v w' ds' :
  m w ds = Panic v w' ds' → (m ≫= f) w ds = Panic v w' ds'.
Proof. intros H. unfold mbind, Body_bind. by rewrite H. Qed.

Lemma call_done {R A} (f : Call A) w ds a w' :
  f w = Done a w' → call (R:=R) f w ds = Next a w' ds.
Proof. intros H. unfold call. by rewrite H. Qed.

Lemma Lock_free w :
  channelsMutex w = false → Lock w = Done () (record OpLock (setMutex true w)).
Proof. intros H. unfold Lock. by rewrite H. Qed.

Lemma Unlock_held w :
  channelsMutex w = true → Unlock w = Done () (record OpUnlock (setMutex false w)).
Proof. intros H. unfold Unlock. by rewrite H. Qed.

(** ** Runs of [close()] and [start()] *)

Lemma range_close {R} l w ds :
  range_ (R:=R) l (λ t, call (close_ t)) w ds = Next () (closedAll l w) ds.
Proof. by apply range_calls. Qed.

Lemma range_start {R} l w ds :
  range_ (R:=R) l (λ t, call (start_ t)) w ds = Next () (startedAll l w) ds.
Proof. by apply range_calls. Qed.

Lemma closedAll_tasks l w t :
  tasks (closedAll l w) !! t
  = if decide (t ∈ l) then Some Closed else tasks w !! t.
Proof. by apply (marks_tasks closed Closed). Qed.

Lemma closedAll_order_tasks (s : gset positive) w t :
  tasks (closedAll (order s) w) !! t
  = if decide (t ∈ s) then Some Closed else tasks w !! t.
Proof. rewrite closedAll_tasks. apply decide_ext, in_order. Qed.

Lemma closedAll_log l w : log (closedAll l w) = log w ++ map OpClose l.
Proof. by apply (marks_log closed OpClose). Qed.

Lemma closedAll_sync l w :
  channelsMutex (closedAll l w) = channelsMutex w
  ∧ writeChan (closedAll l w) = writeChan w
  ∧ writeDone (closedAll l w) = writeDone w
  ∧ eventChanClosed (closedAll l w) = eventChanClosed w.
Proof. by apply (marks_sync closed). Qed.

Lemma startedAll_tasks l w t :
  tasks (startedAll l w) !! t
  = if decide (t ∈ l) then Some Started else tasks w !! t.
Proof. by apply (marks_tasks started Started). Qed.

Lemma startedAll_log l w : log (startedAll l w) = log w ++ map OpStart l.
Proof. by apply (marks_log started OpStart). Qed.

Lemma startedAll_sync l w :
  channelsMutex (startedAll l w) = channelsMutex w
  ∧ writeChan (startedAll l w) = writeChan w
  ∧ writeDone (startedAll l w) = writeDone w
  ∧ eventChanClosed (startedAll l w) = eventChanClosed w.
Proof. by apply (marks_sync started). Qed.

Lemma not_running w :
  (∀ t, tasks w !! t ≠ Some Started) → ¬ running w.
Proof. intros H (t & s & Ht & ->). by apply (H t). Qed.

(** The closure of [Close] that closes the channels under the mutex. *)
Lemma Close_channels l w :
  channelsMutex w = false →
  func (call Lock ;; defer Unlock ;; range_ l (λ ch, call (close_ ch))) w
  = Done () (record OpUnlock (setMutex false
               (closedAll l (record OpLock (setMutex true w))))).
Proof.
  intros Hm. unfold func.
  erewrite bind_next by (apply call_done, Lock_free, Hm).
  erewrite bind_next by reflexivity.
  rewrite range_close. cbn [runDeferred].
  rewrite Unlock_held; [done |].
  by destruct (closedAll_sync l (record OpLock (setMutex true w))) as (-> & _).
Qed.


(** ** Close *)

Lemma closedNode_tasks n w t :
  tasks (closedNode n w) !! t
  = if decide (t ∈ channels n ∨ t ∈ channelAccepters n
               ∨ nodeHeartbeat n = Some t)
    then Some Closed else tasks w !! t.
Proof.
  unfold closedNode. cbn [tasks record setMutex].
  rewrite closedAll_tasks. cbn [tasks record setMutex].
  rewrite closedAll_tasks.
  destruct (decide (t ∈ order (channels n))) as [H1|H1];
    rewrite in_order in H1.
  { rewrite decide_True; [done | by left]. }
  destruct (decide (t ∈ order (channelAccepters n))) as [H2|H2];
    rewrite in_order in H2.
  { rewrite decide_True; [done | by right; left]. }
  destruct (nodeHeartbeat n) as [h|] eqn:Hh.
  - cbn. destruct (decide (t = h)) as [->|Hne].
    + rewrite lookup_insert_eq, decide_True; [done | by right; right].
    + rewrite lookup_insert_ne by done.
      rewrite decide_False; [done |]. intros [?|[?|?]]; congruence.
  - rewrite decide_False; [done |]. intros [?|[?|?]]; congruence.
Qed.

Lemma closedNode_log n w :
  log (closedNode n w)
  = log w ++ match nodeHeartbeat n with Some h => [OpClose h] | None => [] end
          ++ map OpClose (order (channelAccepters n))
          ++ [OpLock]
          ++ map OpClose (order (channels n))
          ++ [OpUnlock].
Proof.
  unfold closedNode. cbn [log record setMutex].
  rewrite closedAll_log. cbn [log record setMutex].
  rewrite closedAll_log.
  destruct (nodeHeartbeat n); cbn; by rewrite <- ?app_assoc, ?app_nil_r.
Qed.

Lemma closedNode_sync n w :
  channelsMutex (closedNode n w) = false
  ∧ writeChan (closedNode n w) = writeChan w
  ∧ writeDone (closedNode n w) = writeDone w
  ∧ eventChanClosed (closedNode n w) = eventChanClosed w.
Proof.
  unfold closedNode. cbn [channelsMutex writeChan writeDone eventChanClosed
                          record setMutex].
  split; [done |].
  destruct (closedAll_sync (order (channels n))
    (record OpLock (setMutex true (closedAll (order (channelAccepters n))
       match nodeHeartbeat n with Some h => closed h w | None => w end))))
    as (_ & -> & -> & ->).
  cbn [channelsMutex writeChan writeDone eventChanClosed record setMutex].
  destruct (closedAll_sync (order (channelAccepters n))
       match nodeHeartbeat n with Some h => closed h w | None => w end)
    as (_ & -> & -> & ->).
  by destruct (nodeHeartbeat n).
Qed.

(** C3.  On a node whose channels mutex is free, whose event stream is
    still open, and to which every running goroutine belongs, [Close]
    returns, and what it did is, in this order: close the heartbeat (if the
    node has one), close every accepter, lock the channels mutex, close
    every registered channel, unlock, launch the goroutine that consumes
    the unread events, wait on the wait group, and close the event stream.
    The event stream is closed once, as the last operation; at that point
    every registered channel has been closed and no goroutine is running. *)
Theorem Close_sequence (n : Node) (w : World) :
  channelsMutex w = false →
  eventChanClosed w = false →
  (∀ t, tasks w !! t = Some Started →
        t ∈ channels n ∨ t ∈ channelAccepters n ∨ nodeHeartbeat n = Some t) →
  ∃ w' before,
    Close n w = Done () w'
    ∧ before
      = match nodeHeartbeat n with Some h => [OpClose h] | None => [] end
        ++ map OpClose (order (channelAccepters n))
        ++ [OpLock]
        ++ map OpClose (order (channels n))
        ++ [OpUnlock; OpDrainEvents; OpWgWait]
    ∧ log w' = log w ++ before ++ [OpCloseEvents]
    ∧ (OpCloseEvents ∉ before)
    ∧ (∀ ch, ch ∈ channels n → tasks w' !! ch = Some Closed)
    ∧ ¬ running w'
    ∧ eventChanClosed w' = true
    ∧ channelsMutex w' = false.
Proof.
  intros Hm He Hown.
  destruct (closedNode_sync n w) as (Hm5 & _ & _ & He5).
  pose proof (closedNode_tasks n w) as Ht5.
  pose proof (closedNode_log n w) as Hl5.
  remember (closedNode n w) as w5 eqn:Hw5.
  assert (Hidle : ∀ t, tasks w5 !! t ≠ Some Started).
  { intros t. rewrite Ht5.
    destruct (decide _) as [_|Hno]; [done |]. intros Ht. by apply Hno, Hown. }
  assert (Hrun : Close n w
    = Done () (record OpCloseEvents (setEventChanClosed true
                 (record OpWgWait (record OpDrainEvents w5))))).
  { unfold Close, func.
    erewrite bind_next with (w' := match nodeHeartbeat n with
                                   | Some h => closed h w | None => w end)
      by (by destruct (nodeHeartbeat n)).
    erewrite bind_next by apply range_close.
    erewrite bind_next.
    2:{ apply call_done, Close_channels.
        destruct (closedAll_sync (order (channelAccepters n))
          match nodeHeartbeat n with Some h => closed h w | None => w end)
          as (-> & _).
        by destruct (nodeHeartbeat n). }
    fold (closedNode n w). rewrite <- Hw5.
    erewrite bind_next by (by apply call_done).
    erewrite bind_next.
    2:{ apply call_done. unfold wgWait.
        rewrite decide_False; [done |]. by apply not_running. }
    unfold call, closeEventChan. cbn. by rewrite He5, He. }
  eexists _, _. split; [exact Hrun |]. split; [reflexivity |].
  cbn [log tasks eventChanClosed channelsMutex record setEventChanClosed].
  rewrite Hl5.
  repeat split.
  - rewrite <- !app_assoc. by destruct (nodeHeartbeat n).
  - rewrite !elem_of_app, !list_elem_of_fmap.
    intros [H|[H|[H|[H|H]]]].
    + destruct (nodeHeartbeat n); not_listed H.
    + by destruct H as (? & ? & _).
    + not_listed H.
    + by destruct H as (? & ? & _).
    + not_listed H.
  - intros ch Hch. rewrite Ht5.
    rewrite decide_True; [done | by left].
  - by apply not_running.
  - done.
Qed.


(** ** NewNode *)

Lemma fresh_task (w : World) : tasks w !! fresh (dom (tasks w)) = None.
Proof. apply not_elem_of_dom, is_fresh. Qed.

Lemma createChannel_run n e label rwc w :
  channelsMutex w = false →
  let ch := fresh (dom (tasks w)) in
  createChannel n e label rwc w
  = Done (ch, setChannels ({[ch]} ∪ channels n) n)
      (record OpUnlock (setMutex false
        (record (OpNewChannel ch label)
          (setTasks (<[ch := Created]> (tasks w))
            (record OpLock (setMutex true w)))))).
Proof.
  intros Hm ch. unfold createChannel, func.
  erewrite bind_next by (apply call_done, Lock_free, Hm).
  erewrite bind_next by reflexivity.
  erewrite bind_next by (by apply call_done).
  unfold return_. cbn [runDeferred]. by rewrite Unlock_held.
Qed.

Lemma owns_alloc w0 n n' w w' :
  owns w0 n w →
  let t := fresh (dom (tasks w)) in
  channels n' ∪ channelAccepters n' = {[t]} ∪ (channels n ∪ channelAccepters n) →
  tasks w' = <[t := Created]> (tasks w) →
  owns w0 n' w'.
Proof.
  intros Hown t Hsets Htasks u. rewrite Hsets, Htasks.
  pose proof (fresh_task w) as Hfresh. fold t in Hfresh.
  pose proof (Hown t) as Ht. pose proof (Hown u) as Hu.
  destruct (decide (u = t)) as [->|Hne].
  - rewrite decide_True by set_solver. rewrite lookup_insert_eq.
    split; [| done].
    destruct (decide (t ∈ channels n ∪ channelAccepters n)); [naive_solver |].
    by rewrite <- Ht.
  - rewrite lookup_insert_ne by done.
    destruct (decide (u ∈ channels n ∪ channelAccepters n)) as [Hin|Hin].
    + rewrite decide_True by set_solver. done.
    + rewrite decide_False by set_solver. done.
Qed.

(** One usable endpoint: the node gains an accepter or a channel. *)
Lemma NewNode_endpoint_usable w0 tconf n w ds :
  usable tconf → channelsMutex w = false → owns w0 n w →
  ∃ n' w',
    NewNode_endpoint tconf n w ds = Next n' w' ds
    ∧ conf n' = conf n
    ∧ nodeHeartbeat n' = nodeHeartbeat n
    ∧ channelsMutex w' = false
    ∧ owns w0 n' w'.
Proof.
  intros (tp & Hinit & Hsup) Hm Hown. unfold NewNode_endpoint. rewrite Hinit.
  unfold supported in Hsup.
  destruct (isChannelAccepter tp) eqn:Hacc.
  - eexists _, _. split.
    { erewrite bind_next by (by apply call_done). reflexivity. }
    repeat split; try done.
    eapply owns_alloc; [exact Hown | | reflexivity]. cbn. set_solver.
  - cbn in Hsup. rewrite Hsup. eexists _, _. split.
    { erewrite bind_next by (apply call_done, createChannel_run, Hm).
      reflexivity. }
    repeat split; try done.
    eapply owns_alloc; [exact Hown | | reflexivity]. cbn. set_solver.
Qed.

(** An endpoint that fails to initialise: everything built so far is
    closed and the error is returned. *)
Lemma NewNode_endpoint_fails w0 tconf err n w ds :
  init tconf = inl err → owns w0 n w →
  ∃ w',
    NewNode_endpoint tconf n w ds = Return (None, Some err) w' ds
    ∧ released w0 w'.
Proof.
  intros Hinit Hown. unfold NewNode_endpoint. rewrite Hinit.
  eexists. split.
  { erewrite bind_next by apply range_close.
    erewrite bind_next by apply range_close. reflexivity. }
  intros t. rewrite !closedAll_order_tasks. specialize (Hown t).
  destruct (decide (t ∈ channels n ∪ channelAccepters n)) as [Hin|Hin].
  - right. split; [naive_solver |].
    destruct (decide (t ∈ channelAccepters n)); [done |].
    rewrite decide_True; [done | set_solver].
  - left. rewrite decide_False by set_solver.
    rewrite decide_False by set_solver. done.
Qed.

(** An endpoint that initialises but implements neither interface. *)
Lemma NewNode_endpoint_unsupported tconf tp n w ds :
  init tconf = inr tp → supported tp = false →
  NewNode_endpoint tconf n w ds
  = Panic ("endpoint " +:+ typeName tp +:+ " does not implement any interface")
          w ds.
Proof.
  intros Hinit Hsup. unfold NewNode_endpoint. rewrite Hinit.
  unfold supported in Hsup. apply orb_false_elim in Hsup as [-> ->]. done.
Qed.


Lemma firstAfterUsable_cons tconf l e :
  usable tconf → firstAfterUsable l e → firstAfterUsable (tconf :: l) e.
Proof.
  intros Hu (pre & post & -> & Hpre).
  exists (tconf :: pre), post. split; [done | by constructor].
Qed.

Lemma firstAfterUsable_here tconf l : firstAfterUsable (tconf :: l) tconf.
Proof. exists [], l. split; [done | constructor]. Qed.





(** The loop over the endpoints: it runs through when every endpoint is
    usable, and otherwise stops at the first one that is not, with the
    error of its [init] or with a panic. *)
Lemma NewNode_loop w0 ds l : ∀ n w,
  channelsMutex w = false → owns w0 n w →
  match rangeWith l n NewNode_endpoint w ds with
  | Next n' w' ds' =>
      ds' = ds ∧ conf n' = conf n ∧ nodeHeartbeat n' = nodeHeartbeat n
      ∧ channelsMutex w' = false ∧ owns w0 n' w' ∧ Forall usable l
  | Return r w' ds' =>
      ds' = ds ∧ released w0 w'
      ∧ ∃ tconf err, firstAfterUsable l tconf ∧ init tconf = inl err
                     ∧ r = (None, Some err)
  | Panic v w' ds' =>
      ds' = ds
      ∧ ∃ tconf tp, firstAfterUsable l tconf ∧ init tconf = inr tp
                    ∧ supported tp = false
  | Block _ => False
  end.
Proof.
  induction l as [|tconf l IH]; intros n w Hm Hown; cbn [rangeWith].
  - cbn. by repeat split.
  - destruct (init tconf) as [err|tp] eqn:Hinit.
    + destruct (NewNode_endpoint_fails w0 tconf err n w ds Hinit Hown)
        as (w' & Hrun & Hrel).
      erewrite bind_return by exact Hrun.
      repeat split; [done |]. exists tconf, err.
      split; [apply firstAfterUsable_here | done].
    + destruct (supported tp) eqn:Hsup.
      * assert (Hu : usable tconf) by (by exists tp).
        destruct (NewNode_endpoint_usable w0 tconf n w ds Hu Hm Hown)
          as (n1 & w1 & Hrun & Hc & Hh & Hm1 & Hown1).
        erewrite bind_next by exact Hrun.
        specialize (IH n1 w1 Hm1 Hown1).
        destruct (rangeWith l n1 NewNode_endpoint w1 ds)
          as [n2 w2 ds2 | r w2 ds2 | v w2 ds2 | w2]; [| | | done].
        -- destruct IH as (-> & Hc2 & Hh2 & Hm2 & Hown2 & Hall).
           repeat split; try done; try congruence. by constructor.
        -- destruct IH as (-> & Hrel & e & err & Hfirst & He & ->).
           repeat split; try done. exists e, err.
           split; [by apply firstAfterUsable_cons | done].
        -- destruct IH as (-> & e & tp' & Hfirst & He & Hs).
           split; [done |]. exists e, tp'.
           split; [by apply firstAfterUsable_cons | done].
      * erewrite bind_panic
          by (by apply NewNode_endpoint_unsupported with (tp := tp)).
        split; [done |]. exists tconf, tp.
        split; [apply firstAfterUsable_here | done].
Qed.


Lemma withDefaults_Endpoints conf :
  Endpoints (withDefaults conf) = Endpoints conf.
Proof.
  unfold withDefaults.
  destruct (OutComponentId conf <? 1)%N; simpl.
  all: destruct (HeartbeatPeriod conf =? 0); simpl.
  all: by destruct (HeartbeatSystemType conf =? 0).
Qed.

Lemma NewNode_unfold conf w :
  NewNode conf w
  = if (OutSystemId conf <? 1)%N
    then Done (None, Some "SystemId must be >= 1"%string) w
    else if (length (Endpoints conf) =? 0)%nat
    then Done (None, Some "at least one endpoint must be provided"%string) w
    else if bool_decide (OutSignatureKey conf ≠ None)
            && bool_decide (OutVersion conf ≠ V2)
    then Done (None, Some "OutSignatureKey requires V2 frames"%string) w
    else NewNode_build (withDefaults conf) w.
Proof.
  unfold NewNode, NewNode_build, withDefaults, func.
  destruct (OutSystemId conf <? 1)%N; [done |].
  erewrite bind_next by reflexivity.
  destruct (OutComponentId conf <? 1)%N; simpl.
  all: destruct (length (Endpoints conf) =? 0)%nat; [done |].
  all: erewrite bind_next by reflexivity.
  all: destruct (bool_decide (OutSignatureKey conf ≠ None)
                 && bool_decide (OutVersion conf ≠ V2)); [done |].
  all: erewrite bind_next by reflexivity.
  all: destruct (HeartbeatPeriod conf =? 0); simpl.
  all: by destruct (HeartbeatSystemType conf =? 0).
Qed.

Lemma rejected_checks conf :
  rejected conf ↔
  (OutSystemId conf <? 1)%N = true
  ∨ (length (Endpoints conf) =? 0)%nat = true
  ∨ bool_decide (OutSignatureKey conf ≠ None)
    && bool_decide (OutVersion conf ≠ V2) = true.
Proof.
  unfold rejected.
  rewrite N.ltb_lt, Nat.eqb_eq, andb_true_iff, !bool_decide_eq_true.
  assert (length (Endpoints conf) = 0%nat ↔ Endpoints conf = []) as ->
    by (by destruct (Endpoints conf)).
  done.
Qed.

Lemma start_run n w :
  start n w
  = Done () (startedAll (order (channelAccepters n))
              (startedAll (order (channels n))
                 match nodeHeartbeat n with
                 | Some h => started h w
                 | None => w
                 end)).
Proof.
  unfold start, func.
  erewrite bind_next with (w' := match nodeHeartbeat n with
                                 | Some h => started h w | None => w end)
    by (by destruct (nodeHeartbeat n)).
  erewrite bind_next by apply range_start.
  by rewrite range_start.
Qed.

Lemma newNodeHeartbeat_done n w : ∃ h w', newNodeHeartbeat n w = Done h w'.
Proof.
  unfold newNodeHeartbeat.
  destruct (HeartbeatDisable (conf n)); [by eexists _, _ |].
  destruct (Dialect (conf n)) as [d|]; [| by eexists _, _].
  destruct (definesHeartbeat d); by eexists _, _.
Qed.



Lemma NewNode_build_run c w :
  match NewNode_build c w with
  | Done (Some n, None) w' => Forall usable (Endpoints c) ∧ conf n = c
  | Done (None, Some err) w' =>
      released w w'
      ∧ ∃ tconf, firstAfterUsable (Endpoints c) tconf ∧ init tconf = inl err
  | Done _ _ => False
  | Panicked v w' =>
      ∃ tconf tp, firstAfterUsable (Endpoints c) tconf
                  ∧ init tconf = inr tp ∧ supported tp = false
  | Blocked _ => False
  end.
Proof.
  unfold NewNode_build, func.
  erewrite bind_next by (by apply call_done).
  set (n0 := {| conf := c; channelAccepters := ∅; channels := ∅;
                nodeHeartbeat := None |}).
  set (w0 := setMutex false (setWriteDone 0 (setEventChanClosed false w))).
  assert (Hown : owns w n0 w0).
  { intros t. rewrite decide_False; [done |]. cbn. set_solver. }
  pose proof (NewNode_loop w [] (Endpoints c) n0 w0 eq_refl Hown) as Hloop.
  destruct (rangeWith (Endpoints c) n0 NewNode_endpoint w0 [])
    as [n1 w1 ds1 | r w1 ds1 | v w1 ds1 | w1] eqn:Hrun; [| | | done].
  - destruct Hloop as (-> & Hc & _ & _ & _ & Hall).
    erewrite bind_next by exact Hrun.
    destruct (newNodeHeartbeat_done n1 w1) as (h & w2 & Hh).
    erewrite bind_next by (apply call_done, Hh).
    erewrite bind_next by (apply call_done, start_run).
    unfold return_. cbn [runDeferred]. by split.
  - destruct Hloop as (-> & Hrel & tconf & err & Hfirst & Hinit & ->).
    erewrite bind_return by exact Hrun. cbn [runDeferred].
    split; [done |]. by exists tconf.
  - erewrite bind_panic by exact Hrun.
    destruct Hloop as (-> & tconf & tp & Hfirst & Hinit & Hsup).
    cbn [runDeferred]. by exists tconf, tp.
Qed.


(** Every way [NewNode] can end, and what the configuration was then. *)
Lemma NewNode_run c w :
  match NewNode c w with
  | Done (Some n, None) w' =>
      ¬ rejected c ∧ Forall usable (Endpoints c) ∧ conf n = withDefaults c
  | Done (None, Some err) w' =>
      released w w'
      ∧ (rejected c
         ∨ (¬ rejected c
            ∧ ∃ tconf, firstAfterUsable (Endpoints c) tconf
                       ∧ init tconf = inl err))
  | Done _ _ => False
  | Panicked v w' =>
      ¬ rejected c
      ∧ ∃ tconf tp, firstAfterUsable (Endpoints c) tconf
                    ∧ init tconf = inr tp ∧ supported tp = false
  | Blocked _ => False
  end.
Proof.
  rewrite NewNode_unfold. pose proof (rejected_checks c) as Hrej.
  destruct (OutSystemId c <? 1)%N eqn:H1.
  { split; [by left | left; apply Hrej; by left]. }
  destruct (length (Endpoints c) =? 0)%nat eqn:H2.
  { split; [by left | left; apply Hrej; by right; left]. }
  destruct (bool_decide (OutSignatureKey c ≠ None)
            && bool_decide (OutVersion c ≠ V2)) eqn:H3.
  { split; [by left | left; apply Hrej; by right; right]. }
  assert (Hok : ¬ rejected c).
  { rewrite Hrej. intros [?|[?|?]]; congruence. }
  pose proof (NewNode_build_run (withDefaults c) w) as Hb.
  rewrite withDefaults_Endpoints in Hb.
  destruct (NewNode_build (withDefaults c) w) as [[[n|] [err|]] w'|v w'|w'];
    try done.
  destruct Hb as (Hrel & Hfirst). split; [done |]. by right.
Qed.

Lemma withDefaults_fields c :
  OutComponentId (withDefaults c)
    = (if decide (OutComponentId c = 0%N) then 1%N else OutComponentId c)
  ∧ HeartbeatPeriod (withDefaults c)
    = (if decide (HeartbeatPeriod c = 0) then 5 * time.Second
       else HeartbeatPeriod c)
  ∧ HeartbeatSystemType (withDefaults c)
    = (if decide (HeartbeatSystemType c = 0) then 6
       else HeartbeatSystemType c)
  ∧ Endpoints (withDefaults c) = Endpoints c
  ∧ Dialect (withDefaults c) = Dialect c
  ∧ InSignatureKey (withDefaults c) = InSignatureKey c
  ∧ OutVersion (withDefaults c) = OutVersion c
  ∧ OutSystemId (withDefaults c) = OutSystemId c
  ∧ OutSignatureKey (withDefaults c) = OutSignatureKey c
  ∧ HeartbeatDisable (withDefaults c) = HeartbeatDisable c.
Proof.
  unfold withDefaults.
  destruct (OutComponentId c <? 1)%N eqn:H1; simpl.
  all: destruct (HeartbeatPeriod c =? 0) eqn:H2; simpl.
  all: destruct (HeartbeatSystemType c =? 0) eqn:H3; simpl.
  all: first [apply N.ltb_lt in H1 | apply N.ltb_ge in H1].
  all: first [apply Z.eqb_eq in H2 | apply Z.eqb_neq in H2].
  all: first [apply Z.eqb_eq in H3 | apply Z.eqb_neq in H3].
  all: repeat split; try done.
  all: repeat case_decide; try done; lia.
Qed.

(** The node [NewNode] returns comes without an error and stores the
    configuration with its defaults filled in. *)
Lemma NewNode_stores c w n e w' :
  NewNode c w = Done (Some n, e) w' → e = None ∧ conf n = withDefaults c.
Proof.
  intros Hrun. pose proof (NewNode_run c w) as H. rewrite Hrun in H.
  destruct e as [err|]; [done |]. by destruct H as (_ & _ & ->).
Qed.



(** C6.  In the node [NewNode] returns, [OutComponentId] is 1 if it was
    zero, [HeartbeatPeriod] is 5 seconds if it was zero, and
    [HeartbeatSystemType] is 6 (MAV_TYPE_GCS) if it was zero; these three
    fields are otherwise as given, and every other field of the
    configuration is stored unchanged. *)
Theorem NewNode_defaults (c : NodeConf) (w : World) (n : Node)
    (e : option error) (w' : World) :
  NewNode c w = Done (Some n, e) w' →
  OutComponentId (conf n)
    = (if decide (OutComponentId c = 0%N) then 1%N else OutComponentId c)
  ∧ HeartbeatPeriod (conf n)
    = (if decide (HeartbeatPeriod c = 0) then 5 * time.Second
       else HeartbeatPeriod c)
  ∧ HeartbeatSystemType (conf n)
    = (if decide (HeartbeatSystemType c = 0) then 6
       else HeartbeatSystemType c)
  ∧ Endpoints (conf n) = Endpoints c
  ∧ Dialect (conf n) = Dialect c
  ∧ InSignatureKey (conf n) = InSignatureKey c
  ∧ OutVersion (conf n) = OutVersion c
  ∧ OutSystemId (conf n) = OutSystemId c
  ∧ OutSignatureKey (conf n) = OutSignatureKey c
  ∧ HeartbeatDisable (conf n) = HeartbeatDisable c.
Proof.
  intros Hrun. destruct (NewNode_stores c w n e w' Hrun) as [_ ->].
  apply withDefaults_fields.
Qed.

(** C7.  The zero value of [Version] is [V2]: a [NodeConf] that leaves
    [OutVersion] at its zero value asks for V2 frames, and the node that
    [NewNode] builds from it has [OutVersion] equal to [V2]. *)
Theorem zero_Version_is_V2 :
  zeroVersion = V2
  ∧ V1 ≠ V2
  ∧ OutVersion zeroNodeConf = V2
  ∧ ∀ (c : NodeConf) (w : World) n e w',
      OutVersion c = zeroVersion →
      NewNode c w = Done (Some n, e) w' →
      OutVersion (conf n) = V2.
Proof.
  repeat split; try done.
  intros c w n e w' Hz Hrun.
  destruct (NewNode_stores c w n e w' Hrun) as [_ ->].
  destruct (withDefaults_fields c) as (_ & _ & _ & _ & _ & _ & -> & _).
  by rewrite Hz.
Qed.

(** C8.  The constants for ip-based endpoints: a read buffer of 512 bytes,
    a connect timeout of 10 seconds, a read timeout of 60 seconds, a write
    timeout of 10 seconds and a reconnect period of 2 seconds (durations
    in nanoseconds). *)
Theorem net_constants :
  netBufferSize = 512
  ∧ netConnectTimeout = 10 * time.Second
  ∧ netReadTimeout = 60 * time.Second
  ∧ netWriteTimeout = 10 * time.Second
  ∧ netReconnectPeriod = 2 * time.Second
  ∧ time.Second = 1000000000
  ∧ netConnectTimeout = 10000000000
  ∧ netReadTimeout = 60000000000
  ∧ netWriteTimeout = 10000000000
  ∧ netReconnectPeriod = 2000000000.
Proof. by repeat split. Qed.

(** C10.  When [NewNode] returns an error, every object (channel or
    accepter) it had created has been closed, and the objects that existed
    before are untouched: no object created by the failed call is left
    allocated-but-open or running. *)
Theorem NewNode_failure_closes (c : NodeConf) (w : World) (err : error)
    (w' : World) :
  NewNode c w = Done (None, Some err) w' →
  (∀ t, tasks w !! t = None →
        tasks w' !! t = None ∨ tasks w' !! t = Some Closed)
  ∧ (∀ t, is_Some (tasks w !! t) → tasks w' !! t = tasks w !! t).
Proof.
  intros Hrun. pose proof (NewNode_run c w) as H. rewrite Hrun in H.
  destruct H as (Hrel & _). split.
  - intros t Ht. destruct (Hrel t) as [->|[_ ->]]; [by left | by right].
  - intros t [s Ht]. destruct (Hrel t) as [->|[? _]]; [done | congruence].
Qed.


(** * Further properties of node.go *)

(** ** The write primitives, evaluated *)

Lemma Lock_held w : channelsMutex w = true → Lock w = Blocked w.
Proof. intros H. unfold Lock. by rewrite H. Qed.

Lemma filter_keeps_all {A} (P : A → Prop) `{!∀ x, Decision (P x)} (l : list A) :
  (∀ x, x ∈ l → P x) → filter P l = l.
Proof.
  induction l as [|x l IH]; intros Hall; [done |].
  rewrite filter_cons_True by (apply Hall; by left).
  rewrite IH; [done |]. intros y Hy. apply Hall. by right.
Qed.

Lemma filter_drops_all {A} (P : A → Prop) `{!∀ x, Decision (P x)} (l : list A) :
  (∀ x, x ∈ l → ¬ P x) → filter P l = [].
Proof.
  induction l as [|x l IH]; intros Hall; [done |].
  rewrite filter_cons_False by (apply Hall; by left).
  apply IH. intros y Hy. apply Hall. by right.
Qed.

(** What a fan-out evaluates to, whether or not the mutex is free. *)
Lemma fanout_eval (P : Channel → Prop) `{!∀ c, Decision (P c)}
    (f : Channel → Body unit unit) (what : What) (n : Node) (w : World) :
  (∀ c, f c = if bool_decide (P c)
              then call (send c what) ;; defer recvDone
              else mret ()) →
  func (call Lock ;; defer Unlock ;; range_ (order (channels n)) f) w
  = if channelsMutex w then Blocked w
    else
      let l := filter P (order (channels n)) in
      let w1 := sends what l (record OpLock (setMutex true w)) in
      Done () {| channelsMutex := false;
                 writeChan := writeChan w1;
                 writeDone := writeDone w1 - length l;
                 eventChanClosed := eventChanClosed w1;
                 tasks := tasks w1;
                 log := log w1 ++ replicate (length l) OpRecvDone
                              ++ [OpUnlock] |}.
Proof.
  intros Hf. unfold func. destruct (channelsMutex w) eqn:Hm.
  - unfold mbind, Body_bind, call at 1. by rewrite Lock_held.
  - erewrite bind_next by (apply call_done, Lock_free, Hm).
    erewrite bind_next by reflexivity.
    rewrite (range_fanout P f what _ _ [Unlock] Hf).
    set (l := filter P (order (channels n))).
    destruct (sends_sync what l (record OpLock (setMutex true w)))
      as (Hs1 & Hs2 & _ & _).
    rewrite runDeferred_drain; [done | by rewrite Hs1 | rewrite Hs2; lia].
Qed.

Lemma writeAll_eval (n : Node) (what : What) (w : World) :
  writeAll n what w
  = if channelsMutex w then Blocked w
    else
      let l := order (channels n) in
      let w1 := sends what l (record OpLock (setMutex true w)) in
      Done () {| channelsMutex := false;
                 writeChan := writeChan w1;
                 writeDone := writeDone w1 - length l;
                 eventChanClosed := eventChanClosed w1;
                 tasks := tasks w1;
                 log := log w1 ++ replicate (length l) OpRecvDone
                              ++ [OpUnlock] |}.
Proof.
  unfold writeAll.
  rewrite (fanout_eval (λ _, True)
             (λ channel, call (send channel what) ;; defer recvDone) what)
    by done.
  by rewrite filter_all.
Qed.

Lemma writeExcept_eval (n : Node) (exceptChannel : Channel) (what : What)
    (w : World) :
  writeExcept n exceptChannel what w
  = if channelsMutex w then Blocked w
    else
      let l := filter (λ ch, ch ≠ exceptChannel) (order (channels n)) in
      let w1 := sends what l (record OpLock (setMutex true w)) in
      Done () {| channelsMutex := false;
                 writeChan := writeChan w1;
                 writeDone := writeDone w1 - length l;
                 eventChanClosed := eventChanClosed w1;
                 tasks := tasks w1;
                 log := log w1 ++ replicate (length l) OpRecvDone
                              ++ [OpUnlock] |}.
Proof.
  unfold writeExcept.
  by rewrite (fanout_eval (λ ch, ch ≠ exceptChannel)
                (λ channel,
                   if bool_decide (channel ≠ exceptChannel)
                   then call (send channel what) ;; defer recvDone
                   else mret ()) what).
Qed.

Lemma writeTo_eval (n : Node) (channel : Channel) (what : What) (w : World) :
  writeTo n channel what w
  = if channelsMutex w then Blocked w
    else if bool_decide (channel ∈ channels n)
    then Done () (record OpUnlock (setMutex false
                   (record OpRecvDone (setWriteDone (writeDone w)
                     (sent channel what (record OpLock (setMutex true w)))))))
    else Done () (record OpUnlock (setMutex false
                   (record OpLock (setMutex true w)))).
Proof.
  unfold writeTo, func. destruct (channelsMutex w) eqn:Hm.
  - unfold mbind, Body_bind, call at 1. by rewrite Lock_held.
  - erewrite bind_next by (apply call_done, Lock_free, Hm).
    erewrite bind_next by reflexivity.
    destruct (bool_decide (channel ∈ channels n)); cbn [negb].
    + erewrite bind_next by reflexivity.
      erewrite bind_next by (by apply call_done).
      unfold call, recvDone. cbn. reflexivity.
    + erewrite bind_return by reflexivity. cbn. reflexivity.
Qed.

(** The facts about one [writeAll] that the loops below need. *)
Lemma writeAll_facts (n : Node) (what : What) (w : World) :
  channelsMutex w = false →
  ∃ w',
    writeAll n what w = Done () w'
    ∧ (∀ ch, queue w' ch = if decide (ch ∈ channels n)
                           then queue w ch ++ [what] else queue w ch)
    ∧ channelsMutex w' = false
    ∧ writeDone w' = writeDone w
    ∧ eventChanClosed w' = eventChanClosed w
    ∧ tasks w' = tasks w.
Proof.
  intros Hm.
  destruct (fanout_spec (λ _, True)
              (λ channel, call (send channel what) ;; defer recvDone)
              what n w) as (w' & Hrun & _ & Hq & Hm' & Hd & He & Ht);
    [done | done |].
  rewrite filter_all in Hq.
  exists w'. repeat split; try done.
  intros ch. rewrite Hq. apply decide_ext, in_order.
Qed.


Lemma order_empty (s : gset positive) : s = ∅ → order s = [].
Proof.
  intros ->. apply Permutation_nil_r.
  rewrite (rangeOrder_perm order ∅). by rewrite elements_empty.
Qed.

(** X1.  While another goroutine holds the channels mutex, [writeTo],
    [writeAll], [writeExcept] and [createChannel] block on it before doing
    anything: nothing is sent, no completion token is taken, no channel is
    allocated or registered. *)
Theorem mutex_held_blocks (n : Node) (channel : Channel) (what : What)
    (e : Endpoint) (label : string) (w : World) :
  channelsMutex w = true →
  writeTo n channel what w = Blocked w
  ∧ writeAll n what w = Blocked w
  ∧ writeExcept n channel what w = Blocked w
  ∧ createChannel n e label e w = Blocked w.
Proof.
  intros Hm. rewrite writeTo_eval, writeAll_eval, writeExcept_eval, Hm.
  repeat split; try done.
  unfold createChannel, func, mbind, Body_bind, call at 1.
  by rewrite Lock_held.
Qed.

(** X2.  [writeExcept] with an [exceptChannel] the node does not know is
    [writeAll]: the two calls end in the same way and in the same world. *)
Theorem writeExcept_unregistered (n : Node) (exceptChannel : Channel)
    (what : What) (w : World) :
  exceptChannel ∉ channels n →
  writeExcept n exceptChannel what w = writeAll n what w.
Proof.
  intros Hout. rewrite writeExcept_eval, writeAll_eval.
  rewrite filter_keeps_all; [done |].
  intros ch Hch ->. by apply Hout, in_order.
Qed.

(** X3.  A fan-out with nobody to write to only locks and unlocks the
    mutex: [writeAll] on a node without channels, and [writeExcept] on a
    node whose only channel (if any) is the excepted one, send nothing,
    take no completion token and leave every write queue as it was. *)
Theorem fanout_to_nobody (n : Node) (exceptChannel : Channel) (what : What)
    (w : World) :
  channelsMutex w = false →
  (channels n = ∅ →
   writeAll n what w
   = Done () (record OpUnlock (setMutex false (record OpLock (setMutex true w)))))
  ∧ (channels n ⊆ {[exceptChannel]} →
     writeExcept n exceptChannel what w
     = Done () (record OpUnlock (setMutex false
                 (record OpLock (setMutex true w))))).
Proof.
  intros Hm. split.
  - intros Hempty. rewrite writeAll_eval, Hm, order_empty by done. cbn.
    by rewrite Nat.sub_0_r.
  - intros Hsub. rewrite writeExcept_eval, Hm.
    rewrite filter_drops_all.
    + cbn. by rewrite Nat.sub_0_r.
    + intros ch Hch Hne. apply in_order in Hch.
      apply Hsub, elem_of_singleton in Hch. done.
Qed.

(** X4.  Writing to a registered channel and then to all channels except
    it fills the write queues exactly as one [writeAll] does: both
    sequences return, and every channel ends with the same queue. *)
Theorem writeTo_then_writeExcept (n : Node) (channel : Channel) (what : What)
    (w : World) :
  channel ∈ channels n →
  channelsMutex w = false →
  ∃ w1 w2 w3,
    writeTo n channel what w = Done () w1
    ∧ writeExcept n channel what w1 = Done () w2
    ∧ writeAll n what w = Done () w3
    ∧ (∀ ch, queue w2 ch = queue w3 ch)
    ∧ channelsMutex w2 = false
    ∧ writeDone w2 = writeDone w3.
Proof.
  intros Hin Hm.
  destruct (writeAll_facts n what w Hm) as (w3 & Hrun3 & Hq3 & _ & Hd3 & _).
  pose proof (writeTo_eval n channel what w) as Hrun1.
  rewrite Hm, bool_decide_eq_true_2 in Hrun1 by done.
  set (w1 := record OpUnlock (setMutex false
               (record OpRecvDone (setWriteDone (writeDone w)
                 (sent channel what (record OpLock (setMutex true w))))))) in *.
  assert (Hq1 : ∀ ch, queue w1 ch
            = if decide (ch = channel) then queue w channel ++ [what]
              else queue w ch).
  { intros ch. exact (queue_sent channel what (record OpLock (setMutex true w)) ch). }
  destruct (fanout_spec (λ ch, ch ≠ channel)
              (λ c, if bool_decide (c ≠ channel)
                    then call (send c what) ;; defer recvDone
                    else mret ())
              what n w1) as (w2 & Hrun2 & _ & Hq2 & Hm2 & Hd2 & _ & _);
    [done | done |].
  exists w1, w2, w3. repeat split; try done.
  - intros ch. rewrite Hq2, Hq3, !Hq1.
    destruct (decide (ch = channel)) as [->|Hne].
    + rewrite decide_False, decide_True; [done | done |].
      rewrite list_elem_of_filter. tauto.
    + apply decide_ext. rewrite list_elem_of_filter, in_order. tauto.
  - by rewrite Hd2, Hd3.
Qed.

Lemma writeAll_each_body (n : Node) (xs : list What) : ∀ (w : World) ds,
  channelsMutex w = false →
  ∃ w',
    range_ (R:=unit) xs (λ x, call (writeAll n x)) w ds = Next () w' ds
    ∧ (∀ ch, queue w' ch = if decide (ch ∈ channels n)
                           then queue w ch ++ xs else queue w ch)
    ∧ channelsMutex w' = false
    ∧ writeDone w' = writeDone w
    ∧ eventChanClosed w' = eventChanClosed w
    ∧ tasks w' = tasks w.
Proof.
  induction xs as [|x xs IH]; intros w ds Hm; cbn [range_].
  - exists w. repeat split; try done.
    intros ch. case_decide; by rewrite ?app_nil_r.
  - destruct (writeAll_facts n x w Hm) as (w1 & Hrun & Hq & Hm1 & Hd & He & Ht).
    destruct (IH w1 ds Hm1) as (w' & Hrun' & Hq' & Hm' & Hd' & He' & Ht').
    exists w'. split.
    { erewrite bind_next by (apply call_done, Hrun). exact Hrun'. }
    repeat split; try congruence.
    intros ch. rewrite Hq', Hq. case_decide; [| done].
    by rewrite <- app_assoc.
Qed.

(** X5.  A caller that hands [xs] to [writeAll] one item after the other
    gets through all of them (each call finds the mutex free and no token
    outstanding), and every registered channel has received the items in
    the order of the calls; the other queues, the tasks and the event
    stream are untouched. *)
Theorem writeAll_each (n : Node) (xs : list What) (w : World) :
  channelsMutex w = false →
  ∃ w',
    func (range_ xs (λ x, call (writeAll n x))) w = Done () w'
    ∧ (∀ ch, ch ∈ channels n → queue w' ch = queue w ch ++ xs)
    ∧ (∀ ch, ch ∉ channels n → queue w' ch = queue w ch)
    ∧ channelsMutex w' = false
    ∧ writeDone w' = writeDone w
    ∧ eventChanClosed w' = eventChanClosed w
    ∧ tasks w' = tasks w.
Proof.
  intros Hm.
  destruct (writeAll_each_body n xs w [] Hm)
    as (w' & Hrun & Hq & Hm' & Hd & He & Ht).
  exists w'. split; [unfold func; by rewrite Hrun |].
  repeat split; try done.
  - intros ch Hch. by rewrite Hq, decide_True.
  - intros ch Hch. by rewrite Hq, decide_False.
Qed.


(** ** Close, evaluated *)

Lemma bind_block {R A B} (m : Body R A) (f : A → Body R B) w ds w' :
  m w ds = Block w' → (m ≫= f) w ds = Block w'.
Proof. intros H. unfold mbind, Body_bind. by rewrite H. Qed.

Lemma call_blocked {R A} (f : Call A) w ds w' :
  f w = Blocked w' → call (R:=R) f w ds = Block w'.
Proof. intros H. unfold call. by rewrite H. Qed.

Lemma Close_eval (n : Node) (w : World) :
  Close n w
  = if channelsMutex w
    then Blocked (closedAll (order (channelAccepters n))
                    match nodeHeartbeat n with
                    | Some h => closed h w
                    | None => w
                    end)
    else if decide (running (closedNode n w))
    then Blocked (record OpDrainEvents (closedNode n w))
    else if eventChanClosed w
    then Panicked "close of closed channel"
           (record OpWgWait (record OpDrainEvents (closedNode n w)))
    else Done () (record OpCloseEvents (setEventChanClosed true
                   (record OpWgWait (record OpDrainEvents (closedNode n w))))).
Proof.
  unfold Close, func.
  erewrite bind_next with (w' := match nodeHeartbeat n with
                                 | Some h => closed h w | None => w end)
    by (by destruct (nodeHeartbeat n)).
  erewrite bind_next by apply range_close.
  set (w2 := closedAll (order (channelAccepters n))
               match nodeHeartbeat n with Some h => closed h w | None => w end).
  assert (Hm2 : channelsMutex w2 = channelsMutex w).
  { subst w2.
    destruct (closedAll_sync (order (channelAccepters n))
      match nodeHeartbeat n with Some h => closed h w | None => w end)
      as (-> & _).
    by destruct (nodeHeartbeat n). }
  destruct (channelsMutex w) eqn:Hm.
  - erewrite bind_block; [done |].
    apply call_blocked. unfold func.
    erewrite bind_block; [done |]. apply call_blocked, Lock_held. congruence.
  - erewrite bind_next by (by apply call_done, Close_channels).
    subst w2. fold (closedNode n w).
    destruct (closedNode_sync n w) as (_ & _ & _ & He5).
    remember (closedNode n w) as w5 eqn:Hw5.
    erewrite bind_next by (by apply call_done).
    unfold mbind, Body_bind, call, wgWait, closeEventChan.
    destruct (decide (running (record OpDrainEvents w5))) as [Hr|Hr].
    + rewrite decide_True by exact Hr. done.
    + rewrite decide_False by exact Hr. cbn. rewrite He5.
      by destruct (eventChanClosed w).
Qed.

Lemma closedNode_idle (n : Node) (w : World) :
  ¬ running (closedNode n w) ↔
  (∀ t, tasks w !! t = Some Started →
        t ∈ channels n ∨ t ∈ channelAccepters n ∨ nodeHeartbeat n = Some t).
Proof.
  split.
  - intros Hidle t Ht.
    destruct (decide (t ∈ channels n ∨ t ∈ channelAccepters n
                      ∨ nodeHeartbeat n = Some t)) as [Hin|Hout]; [done |].
    exfalso. apply Hidle. exists t, Started. split; [| done].
    by rewrite closedNode_tasks, decide_False.
  - intros Hown. apply not_running. intros t. rewrite closedNode_tasks.
    destruct (decide _) as [_|Hno]; [done |]. intros Ht. by apply Hno, Hown.
Qed.


(** X7.  [Close] cannot be called twice: once a call has returned, a
    second call on the same node never returns normally (the event stream
    is closed, and closing it again panics). *)
Theorem Close_twice (n : Node) (w w' : World) :
  Close n w = Done () w' → ∀ w'', Close n w' ≠ Done () w''.
Proof.
  intros Hrun w'' Hrun'.
  assert (He : eventChanClosed w' = true).
  { rewrite Close_eval in Hrun.
    destruct (channelsMutex w); [done |].
    destruct (decide (running (closedNode n w))); [done |].
    destruct (eventChanClosed w); [done |].
    by injection Hrun as <-. }
  rewrite Close_eval, He in Hrun'.
  destruct (channelsMutex w'); [done |].
  by destruct (decide (running (closedNode n w'))).
Qed.

(** X8.  [Close] closes the heartbeat and the accepters before it asks for
    the channels mutex: called while the mutex is held, it blocks with the
    heartbeat and every accepter closed, the mutex never taken, and the
    event stream and every object that is neither the heartbeat nor an
    accepter as they were. *)
Theorem Close_waits_for_mutex (n : Node) (w : World) :
  channelsMutex w = true →
  ∃ w2,
    Close n w = Blocked w2
    ∧ log w2
      = log w ++ match nodeHeartbeat n with Some h => [OpClose h] | None => [] end
              ++ map OpClose (order (channelAccepters n))
    ∧ (∀ ca, ca ∈ channelAccepters n → tasks w2 !! ca = Some Closed)
    ∧ (∀ t, t ∉ channelAccepters n → nodeHeartbeat n ≠ Some t →
            tasks w2 !! t = tasks w !! t)
    ∧ eventChanClosed w2 = eventChanClosed w
    ∧ channelsMutex w2 = true.
Proof.
  intros Hm. eexists. split; [by rewrite Close_eval, Hm |].
  destruct (closedAll_sync (order (channelAccepters n))
    match nodeHeartbeat n with Some h => closed h w | None => w end)
    as (-> & _ & _ & ->).
  rewrite closedAll_log. repeat split.
  - destruct (nodeHeartbeat n); cbn; by rewrite <- ?app_assoc.
  - intros ca Hca. by rewrite closedAll_order_tasks, decide_True.
  - intros t Hacc Hhb. rewrite closedAll_order_tasks, decide_False by done.
    destruct (nodeHeartbeat n) as [h|]; [| done].
    cbn. rewrite lookup_insert_ne; [done | congruence].
  - by destruct (nodeHeartbeat n).
  - by destruct (nodeHeartbeat n).
Qed.

(** ** start and createChannel *)

Lemma start_tasks (n : Node) (w : World) (t : positive) :
  tasks (startedAll (order (channelAccepters n))
           (startedAll (order (channels n))
              match nodeHeartbeat n with
              | Some h => started h w
              | None => w
              end)) !! t
  = if decide (t ∈ channels n ∨ t ∈ channelAccepters n
               ∨ nodeHeartbeat n = Some t)
    then Some Started else tasks w !! t.
Proof.
  rewrite !startedAll_tasks.
  destruct (decide (t ∈ order (channelAccepters n))) as [H2|H2];
    rewrite in_order in H2.
  { rewrite decide_True; [done | by right; left]. }
  destruct (decide (t ∈ order (channels n))) as [H1|H1];
    rewrite in_order in H1.
  { rewrite decide_True; [done | by left]. }
  destruct (nodeHeartbeat n) as [h|] eqn:Hh.
  - cbn. destruct (decide (t = h)) as [->|Hne].
    + rewrite lookup_insert_eq, decide_True; [done | by right; right].
    + rewrite lookup_insert_ne by done.
      rewrite decide_False; [done |]. intros [?|[?|?]]; congruence.
  - rewrite decide_False; [done |]. intros [?|[?|?]]; congruence.
Qed.

Lemma start_sync (n : Node) (w : World) :
  let w' := startedAll (order (channelAccepters n))
              (startedAll (order (channels n))
                 match nodeHeartbeat n with
                 | Some h => started h w
                 | None => w
                 end) in
  channelsMutex w' = channelsMutex w
  ∧ writeChan w' = writeChan w
  ∧ writeDone w' = writeDone w
  ∧ eventChanClosed w' = eventChanClosed w.
Proof.
  cbn zeta.
  destruct (startedAll_sync (order (channelAccepters n))
              (startedAll (order (channels n))
                 match nodeHeartbeat n with
                 | Some h => started h w
                 | None => w
                 end)) as (-> & -> & -> & ->).
  destruct (startedAll_sync (order (channels n))
              match nodeHeartbeat n with
              | Some h => started h w
              | None => w
              end) as (-> & -> & -> & ->).
  by destruct (nodeHeartbeat n).
Qed.

(** X9.  [start] starts the heartbeat (if the node has one), then every
    channel, then every accepter, so that every channel is running before
    any accepter (which may create further channels) is; afterwards
    exactly the objects of the node have changed state, and they are
    running. *)
Theorem start_sequence (n : Node) (w : World) :
  ∃ w',
    start n w = Done () w'
    ∧ log w'
      = log w ++ match nodeHeartbeat n with Some h => [OpStart h] | None => [] end
              ++ map OpStart (order (channels n))
              ++ map OpStart (order (channelAccepters n))
    ∧ (∀ t, t ∈ channels n ∨ t ∈ channelAccepters n ∨ nodeHeartbeat n = Some t →
            tasks w' !! t = Some Started)
    ∧ (∀ t, ¬ (t ∈ channels n ∨ t ∈ channelAccepters n
               ∨ nodeHeartbeat n = Some t) →
            tasks w' !! t = tasks w !! t)
    ∧ channelsMutex w' = channelsMutex w
    ∧ writeChan w' = writeChan w
    ∧ writeDone w' = writeDone w
    ∧ eventChanClosed w' = eventChanClosed w.
Proof.
  eexists. split; [apply start_run |].
  destruct (start_sync n w) as (Hm & Hq & Hd & He).
  split_and!; try done.
  - rewrite !startedAll_log, <- !app_assoc.
    destruct (nodeHeartbeat n); cbn; by rewrite <- ?app_assoc.
  - intros t Hin. by rewrite start_tasks, decide_True.
  - intros t Hout. by rewrite start_tasks, decide_False.
Qed.

(** X10.  With the channels mutex free, [createChannel] returns a channel
    that did not exist before, allocated while the mutex was held and not
    yet started; the node it leaves has that channel added to [channels]
    and nothing else changed, and the mutex is free again. *)
Theorem createChannel_registers (n : Node) (e : Endpoint) (label : string)
    (rwc : Endpoint) (w : World) :
  channelsMutex w = false →
  ∃ ch n' w',
    createChannel n e label rwc w = Done (ch, n') w'
    ∧ tasks w !! ch = None
    ∧ tasks w' = <[ch := Created]> (tasks w)
    ∧ channels n' = {[ch]} ∪ channels n
    ∧ channelAccepters n' = channelAccepters n
    ∧ nodeHeartbeat n' = nodeHeartbeat n
    ∧ conf n' = conf n
    ∧ log w' = log w ++ [OpLock; OpNewChannel ch label; OpUnlock]
    ∧ channelsMutex w' = false.
Proof.
  intros Hm. eexists _, _, _. split; [by apply createChannel_run |].
  cbn. rewrite <- !app_assoc. repeat split; try done.
  apply fresh_task.
Qed.


(** ** NewNode, endpoint by endpoint *)

Lemma fresh_not_owned w0 n w :
  owns w0 n w →
  (fresh (dom (tasks w)) ∉ channels n ∪ channelAccepters n)
  ∧ tasks w0 !! fresh (dom (tasks w)) = None.
Proof.
  intros Hown. pose proof (fresh_task w) as Hfresh.
  specialize (Hown (fresh (dom (tasks w)))).
  destruct (decide (fresh (dom (tasks w)) ∈ channels n ∪ channelAccepters n))
    as [Hin|Hout].
  - destruct Hown as [_ Hc]. congruence.
  - split; [done | congruence].
Qed.

Lemma size_add (t : positive) (s : gset positive) :
  t ∉ s → size ({[t]} ∪ s) = S (size s).
Proof.
  intros Ht. rewrite size_union by set_solver. by rewrite size_singleton.
Qed.

(** One usable endpoint, with everything it changes and leaves alone. *)
Lemma NewNode_endpoint_step w0 tconf n w ds :
  usable tconf → channelsMutex w = false → owns w0 n w →
  channels n ## channelAccepters n →
  ∃ n' w',
    NewNode_endpoint tconf n w ds = Next n' w' ds
    ∧ conf n' = conf n
    ∧ nodeHeartbeat n' = nodeHeartbeat n
    ∧ channelsMutex w' = false
    ∧ owns w0 n' w'
    ∧ channels n' ## channelAccepters n'
    ∧ size (channels n')
      = (size (channels n) + if initsSingle tconf then 1 else 0)%nat
    ∧ size (channelAccepters n')
      = (size (channelAccepters n) + if initsAccepter tconf then 1 else 0)%nat
    ∧ writeChan w' = writeChan w
    ∧ writeDone w' = writeDone w
    ∧ eventChanClosed w' = eventChanClosed w.
Proof.
  intros (tp & Hinit & Hsup) Hm Hown Hdisj.
  destruct (fresh_not_owned w0 n w Hown) as [Hnew _].
  unfold NewNode_endpoint, initsSingle, initsAccepter. rewrite Hinit.
  unfold supported in Hsup.
  destruct (isChannelAccepter tp) eqn:Hacc.
  - eexists _, _. split.
    { erewrite bind_next by (by apply call_done). reflexivity. }
    cbn. split_and!; try done; try lia.
    all: try (rewrite size_add by set_solver; lia).
    all: try (eapply owns_alloc; [exact Hown | | reflexivity]; cbn).
    all: set_solver.
  - cbn in Hsup. rewrite Hsup. eexists _, _. split.
    { erewrite bind_next by (apply call_done, createChannel_run, Hm).
      reflexivity. }
    cbn. split_and!; try done; try lia.
    all: try (rewrite size_add by set_solver; lia).
    all: try (eapply owns_alloc; [exact Hown | | reflexivity]; cbn).
    all: set_solver.
Qed.

(** The loop runs through a prefix of usable endpoints and goes on with
    the rest. *)
Lemma NewNode_prefix w0 rest ds pre : ∀ n w,
  Forall usable pre →
  channelsMutex w = false → owns w0 n w →
  channels n ## channelAccepters n →
  ∃ n1 w1,
    rangeWith (pre ++ rest) n NewNode_endpoint w ds
      = rangeWith rest n1 NewNode_endpoint w1 ds
    ∧ conf n1 = conf n
    ∧ nodeHeartbeat n1 = nodeHeartbeat n
    ∧ channelsMutex w1 = false
    ∧ owns w0 n1 w1
    ∧ channels n1 ## channelAccepters n1
    ∧ size (channels n1)
      = (size (channels n)
         + length (filter (λ e, initsSingle e = true) pre))%nat
    ∧ size (channelAccepters n1)
      = (size (channelAccepters n)
         + length (filter (λ e, initsAccepter e = true) pre))%nat
    ∧ writeChan w1 = writeChan w
    ∧ writeDone w1 = writeDone w
    ∧ eventChanClosed w1 = eventChanClosed w.
Proof.
  induction pre as [|tconf pre IH]; intros n w Hall Hm Hown Hdisj.
  - exists n, w. cbn. split_and!; try done; lia.
  - apply Forall_cons in Hall as [Hu Hall].
    destruct (NewNode_endpoint_step w0 tconf n w ds Hu Hm Hown Hdisj)
      as (n' & w' & Hrun & Hc & Hh & Hm' & Hown' & Hdisj' & Hs1 & Hs2
          & Hq & Hd & He).
    destruct (IH n' w' Hall Hm' Hown' Hdisj')
      as (n1 & w1 & Hrun1 & Hc1 & Hh1 & Hm1 & Hown1 & Hdisj1 & Hs11 & Hs12
          & Hq1 & Hd1 & He1).
    exists n1, w1. split.
    { cbn [app rangeWith]. erewrite bind_next by exact Hrun. exact Hrun1. }
    rewrite !filter_cons.
    split_and!; try done; try congruence.
    + rewrite Hs11, Hs1.
      destruct (initsSingle tconf); case_decide; try done; cbn; lia.
    + rewrite Hs12, Hs2.
      destruct (initsAccepter tconf); case_decide; try done; cbn; lia.
Qed.

Lemma usable_kinds (l : list EndpointConf) :
  Forall usable l →
  (length (filter (λ e, initsSingle e = true) l)
   + length (filter (λ e, initsAccepter e = true) l))%nat = length l.
Proof.
  induction 1 as [|tconf l (tp & Hinit & Hsup) _ IH]; [done |].
  unfold supported in Hsup.
  destruct (isChannelAccepter tp) eqn:Hacc.
  - assert (H1 : initsAccepter tconf = true)
      by (unfold initsAccepter; by rewrite Hinit).
    assert (H2 : initsSingle tconf ≠ true)
      by (unfold initsSingle; by rewrite Hinit, Hacc).
    rewrite (filter_cons_True (λ e, initsAccepter e = true)) by done.
    rewrite (filter_cons_False (λ e, initsSingle e = true)) by done.
    cbn. lia.
  - cbn in Hsup.
    assert (H1 : initsAccepter tconf ≠ true)
      by (unfold initsAccepter; by rewrite Hinit, Hacc).
    assert (H2 : initsSingle tconf = true)
      by (unfold initsSingle; by rewrite Hinit, Hacc, Hsup).
    rewrite (filter_cons_False (λ e, initsAccepter e = true)) by done.
    rewrite (filter_cons_True (λ e, initsSingle e = true)) by done.
    cbn. lia.
Qed.

(** The node under construction and the world when the loop has run
    through the usable endpoints [pre] of a configuration that passed the
    checks. *)
Lemma NewNode_build_prefix c w pre rest :
  Endpoints c = pre ++ rest → Forall usable pre →
  ∃ n1 w1,
    NewNode_build c w
      = func (
          n ← rangeWith rest n1 NewNode_endpoint;
          h ← call (newNodeHeartbeat n);
          let n := setNodeHeartbeat h n in
          call (start n) ;;
          return_ (Some n, None)) w1
    ∧ conf n1 = c
    ∧ nodeHeartbeat n1 = None
    ∧ channelsMutex w1 = false
    ∧ owns w n1 w1
    ∧ channels n1 ## channelAccepters n1
    ∧ size (channels n1) = length (filter (λ e, initsSingle e = true) pre)
    ∧ size (channelAccepters n1)
      = length (filter (λ e, initsAccepter e = true) pre)
    ∧ writeChan w1 = writeChan w
    ∧ writeDone w1 = 0%nat
    ∧ eventChanClosed w1 = false.
Proof.
  intros Heps Hall.
  set (n0 := {| conf := c; channelAccepters := ∅; channels := ∅;
                nodeHeartbeat := None |}).
  set (w0 := setMutex false (setWriteDone 0 (setEventChanClosed false w))).
  assert (Hown : owns w n0 w0).
  { intros t. rewrite decide_False; [done |]. cbn. set_solver. }
  destruct (NewNode_prefix w rest [] pre n0 w0 Hall eq_refl Hown)
    as (n1 & w1 & Hrun & Hc & Hh & Hm & Hown1 & Hdisj & Hs1 & Hs2
        & Hq & Hd & He); [set_solver |].
  exists n1, w1. split.
  { unfold NewNode_build, func.
    erewrite bind_next by (by apply call_done). fold n0 w0.
    rewrite Heps. unfold mbind at 1 3, Body_bind at 1 3. by rewrite Hrun. }
  split_and!; done.
Qed.


(** ** NewNode, from the configuration to the outcome *)

Lemma NewNode_accepted c w :
  ¬ rejected c → NewNode c w = NewNode_build (withDefaults c) w.
Proof.
  intros Hok. rewrite NewNode_unfold. rewrite rejected_checks in Hok.
  destruct (OutSystemId c <? 1)%N; [by destruct Hok; left |].
  destruct (length (Endpoints c) =? 0)%nat; [by destruct Hok; right; left |].
  destruct (bool_decide (OutSignatureKey c ≠ None)
            && bool_decide (OutVersion c ≠ V2));
    [by destruct Hok; right; right | done].
Qed.

Lemma newNodeHeartbeat_cases n w :
  newNodeHeartbeat n w = Done None w
  ∨ newNodeHeartbeat n w
    = Done (Some (fresh (dom (tasks w))))
        (record (OpNewHeartbeat (fresh (dom (tasks w))))
           (setTasks (<[fresh (dom (tasks w)) := Created]> (tasks w)) w)).
Proof.
  unfold newNodeHeartbeat.
  destruct (HeartbeatDisable (conf n)); [by left |].
  destruct (Dialect (conf n)) as [d|]; [| by left].
  destruct (definesHeartbeat d); [by right | by left].
Qed.

(** X11.  The three configuration checks come first and in a fixed order
    (system id, endpoints, signature key): a configuration that fails one
    gets the message of the first check it fails, and [NewNode] returns it
    without having created, started or logged anything. *)
Theorem NewNode_rejects (c : NodeConf) (w : World) :
  ((OutSystemId c < 1)%N →
   NewNode c w = Done (None, Some "SystemId must be >= 1"%string) w)
  ∧ (¬ (OutSystemId c < 1)%N → Endpoints c = [] →
     NewNode c w
     = Done (None, Some "at least one endpoint must be provided"%string) w)
  ∧ (¬ (OutSystemId c < 1)%N → Endpoints c ≠ [] →
     OutSignatureKey c ≠ None → OutVersion c ≠ V2 →
     NewNode c w
     = Done (None, Some "OutSignatureKey requires V2 frames"%string) w).
Proof.
  rewrite NewNode_unfold. split_and!.
  - intros H1. apply N.ltb_lt in H1. by rewrite H1.
  - intros H1 H2. apply N.ltb_nlt in H1. by rewrite H1, H2.
  - intros H1 H2 H3 H4. apply N.ltb_nlt in H1. rewrite H1.
    destruct (Endpoints c); [done |]. cbn.
    by rewrite !bool_decide_eq_true_2.
Qed.

(** X12.  When the first endpoint that is not usable fails to initialise,
    [NewNode] returns the error of that [init], whatever comes after it in
    the list; it has then created one object for each endpoint before the
    failing one, no more, and has closed every one of them. *)
Theorem NewNode_first_failure (c : NodeConf) (w : World)
    (pre post : list EndpointConf) (tconf : EndpointConf) (err : error) :
  ¬ rejected c →
  Endpoints c = pre ++ tconf :: post →
  Forall usable pre →
  init tconf = inl err →
  ∃ w' (created : gset positive),
    NewNode c w = Done (None, Some err) w'
    ∧ size created = length pre
    ∧ (∀ t, t ∈ created → tasks w !! t = None ∧ tasks w' !! t = Some Closed)
    ∧ (∀ t, t ∉ created → tasks w' !! t = tasks w !! t).
Proof.
  intros Hok Heps Hall Hinit.
  rewrite <- withDefaults_Endpoints in Heps.
  destruct (NewNode_build_prefix (withDefaults c) w pre (tconf :: post)
              Heps Hall)
    as (n1 & w1 & Hrun & _ & _ & _ & Hown & Hdisj & Hs1 & Hs2 & _).
  exists (closedAll (order (channelAccepters n1))
            (closedAll (order (channels n1)) w1)),
         (channels n1 ∪ channelAccepters n1).
  split_and!.
  - rewrite NewNode_accepted, Hrun by done. unfold func. cbn [rangeWith].
    erewrite bind_return; cycle 1.
    { erewrite bind_return; [done |].
      unfold NewNode_endpoint. rewrite Hinit.
      erewrite bind_next by apply range_close.
      erewrite bind_next by apply range_close. reflexivity. }
    done.
  - rewrite size_union, Hs1, Hs2 by done. by apply usable_kinds.
  - intros t Hin. specialize (Hown t). rewrite decide_True in Hown by done.
    split; [apply Hown |]. rewrite !closedAll_order_tasks.
    destruct (decide (t ∈ channelAccepters n1)); [done |].
    rewrite decide_True; [done | set_solver].
  - intros t Hout. specialize (Hown t). rewrite decide_False in Hown by done.
    rewrite !closedAll_order_tasks.
    rewrite decide_False by set_solver. rewrite decide_False by set_solver.
    done.
Qed.

(** X13.  When the first endpoint that is not usable initialises but
    implements neither interface, [NewNode] panics with a message naming
    its type, and cleans nothing up: the object created for each endpoint
    before it is left allocated, neither started nor closed. *)
Theorem NewNode_unsupported_leaks (c : NodeConf) (w : World)
    (pre post : list EndpointConf) (tconf : EndpointConf) (tp : Endpoint) :
  ¬ rejected c →
  Endpoints c = pre ++ tconf :: post →
  Forall usable pre →
  init tconf = inr tp →
  supported tp = false →
  ∃ w' (created : gset positive),
    NewNode c w
    = Panicked ("endpoint " +:+ typeName tp
                +:+ " does not implement any interface") w'
    ∧ size created = length pre
    ∧ (∀ t, t ∈ created → tasks w !! t = None ∧ tasks w' !! t = Some Created)
    ∧ (∀ t, t ∉ created → tasks w' !! t = tasks w !! t).
Proof.
  intros Hok Heps Hall Hinit Hsup.
  rewrite <- withDefaults_Endpoints in Heps.
  destruct (NewNode_build_prefix (withDefaults c) w pre (tconf :: post)
              Heps Hall)
    as (n1 & w1 & Hrun & _ & _ & _ & Hown & Hdisj & Hs1 & Hs2 & _).
  exists w1, (channels n1 ∪ channelAccepters n1).
  split_and!.
  - rewrite NewNode_accepted, Hrun by done. unfold func. cbn [rangeWith].
    erewrite bind_panic; cycle 1.
    { erewrite bind_panic; [done |]. by apply NewNode_endpoint_unsupported. }
    done.
  - rewrite size_union, Hs1, Hs2 by done. by apply usable_kinds.
  - intros t Hin. specialize (Hown t). by rewrite decide_True in Hown.
  - intros t Hout. specialize (Hown t). by rewrite decide_False in Hown.
Qed.


(** The node and the world [NewNode] produces from a configuration that
    passes the checks and whose endpoints are all usable. *)
Lemma NewNode_built c w :
  ¬ rejected c → Forall usable (Endpoints c) →
  ∃ n w',
    NewNode c w = Done (Some n, None) w'
    ∧ conf n = withDefaults c
    ∧ size (channels n)
      = length (filter (λ e, initsSingle e = true) (Endpoints c))
    ∧ size (channelAccepters n)
      = length (filter (λ e, initsAccepter e = true) (Endpoints c))
    ∧ channels n ## channelAccepters n
    ∧ (∀ h, nodeHeartbeat n = Some h → h ∉ channels n ∪ channelAccepters n)
    ∧ (∀ t, tasks w' !! t
            = if decide (t ∈ channels n ∨ t ∈ channelAccepters n
                         ∨ nodeHeartbeat n = Some t)
              then Some Started else tasks w !! t)
    ∧ (∀ t, t ∈ channels n ∨ t ∈ channelAccepters n
            ∨ nodeHeartbeat n = Some t → tasks w !! t = None)
    ∧ channelsMutex w' = false
    ∧ eventChanClosed w' = false
    ∧ writeDone w' = 0%nat
    ∧ writeChan w' = writeChan w.
Proof.
  intros Hok Hall.
  assert (Heps : Endpoints (withDefaults c) = Endpoints c ++ [])
    by (by rewrite withDefaults_Endpoints, app_nil_r).
  destruct (NewNode_build_prefix (withDefaults c) w (Endpoints c) [] Heps Hall)
    as (n1 & w1 & Hrun & Hc & Hh & Hm & Hown & Hdisj & Hs1 & Hs2
        & Hq & Hd & He).
  destruct (fresh_not_owned w n1 w1 Hown) as [Hnew Hnew0].
  assert (Hbuild : ∀ h w2,
    newNodeHeartbeat n1 w1 = Done h w2 →
    NewNode c w
    = Done (Some (setNodeHeartbeat h n1), None)
        (startedAll (order (channelAccepters n1))
           (startedAll (order (channels n1))
              match h with Some h' => started h' w2 | None => w2 end))).
  { intros h w2 Hhb. rewrite NewNode_accepted, Hrun by done. unfold func.
    erewrite bind_next by reflexivity.
    erewrite bind_next by (apply call_done, Hhb). cbn zeta.
    erewrite bind_next by (apply call_done, start_run). done. }
  destruct (newNodeHeartbeat_cases n1 w1) as [Hhb|Hhb].
  - exists (setNodeHeartbeat None n1). eexists.
    split; [exact (Hbuild _ _ Hhb) |].
    destruct (start_sync (setNodeHeartbeat None n1) w1) as (Hm' & Hq' & Hd' & He').
    cbn in Hm', Hq', Hd', He'. cbn [channels channelAccepters nodeHeartbeat
                                    setNodeHeartbeat conf].
    split_and!; try done; try congruence.
    + intros t.
      pose proof (start_tasks (setNodeHeartbeat None n1) w1 t) as Hst.
      cbn in Hst. rewrite Hst. clear Hst.
      destruct (decide _) as [Hin|Hout]; [done |].
      specialize (Hown t). rewrite decide_False in Hown; [done |].
      rewrite elem_of_union. tauto.
    + intros t [Hin|[Hin|Hin]]; [| | done].
      all: specialize (Hown t); rewrite decide_True in Hown by set_solver.
      all: apply Hown.
  - set (h := fresh (dom (tasks w1))) in *.
    exists (setNodeHeartbeat (Some h) n1). eexists.
    split; [exact (Hbuild _ _ Hhb) |].
    set (w2 := record (OpNewHeartbeat h)
                 (setTasks (<[h := Created]> (tasks w1)) w1)).
    destruct (start_sync (setNodeHeartbeat (Some h) n1) w2)
      as (Hm' & Hq' & Hd' & He').
    cbn in Hm', Hq', Hd', He'. cbn [channels channelAccepters nodeHeartbeat
                                    setNodeHeartbeat conf].
    split_and!; try done; try congruence.
    + intros t.
      pose proof (start_tasks (setNodeHeartbeat (Some h) n1) w2 t) as Hst.
      cbn in Hst. rewrite Hst. clear Hst.
      destruct (decide _) as [Hin|Hout]; [done |].
      rewrite lookup_insert_ne by (intros ->; apply Hout; by right; right).
      specialize (Hown t). rewrite decide_False in Hown; [done |].
      rewrite elem_of_union. tauto.
    + intros t [Hin|[Hin|[= <-]]]; [| | done].
      all: specialize (Hown t); rewrite decide_True in Hown by set_solver.
      all: apply Hown.
Qed.

(** X14.  A configuration that passes the checks and whose endpoints are
    all usable yields a node with one channel per single-channel endpoint
    and one accepter per accepter endpoint (an endpoint that implements
    both interfaces counts as an accepter), all of them new, distinct and
    running, as is the heartbeat when the node has one; nothing else in the
    world has changed, the channels mutex is free, the event stream is open
    and no completion token is due. *)
Theorem NewNode_success (c : NodeConf) (w : World) :
  ¬ rejected c → Forall usable (Endpoints c) →
  ∃ n w',
    NewNode c w = Done (Some n, None) w'
    ∧ size (channels n)
      = length (filter (λ e, initsSingle e = true) (Endpoints c))
    ∧ size (channelAccepters n)
      = length (filter (λ e, initsAccepter e = true) (Endpoints c))
    ∧ (size (channels n) + size (channelAccepters n))%nat
      = length (Endpoints c)
    ∧ channels n ## channelAccepters n
    ∧ (∀ h, nodeHeartbeat n = Some h → h ∉ channels n ∪ channelAccepters n)
    ∧ (∀ t, t ∈ channels n ∨ t ∈ channelAccepters n
            ∨ nodeHeartbeat n = Some t →
            tasks w !! t = None ∧ tasks w' !! t = Some Started)
    ∧ (∀ t, ¬ (t ∈ channels n ∨ t ∈ channelAccepters n
               ∨ nodeHeartbeat n = Some t) →
            tasks w' !! t = tasks w !! t)
    ∧ channelsMutex w' = false
    ∧ eventChanClosed w' = false
    ∧ writeDone w' = 0%nat
    ∧ writeChan w' = writeChan w.
Proof.
  intros Hok Hall.
  destruct (NewNode_built c w Hok Hall)
    as (n & w' & Hrun & _ & Hs1 & Hs2 & Hdisj & Hhb & Ht & Hnew
        & Hm & He & Hd & Hq).
  exists n, w'. split_and!; try done.
  - rewrite Hs1, Hs2. by apply usable_kinds.
  - intros t Hin. split; [by apply Hnew |]. by rewrite Ht, decide_True.
  - intros t Hout. by rewrite Ht, decide_False.
Qed.

(** X15.  A node built by [NewNode] in a world where nothing else is
    running can be closed: [Close] returns, and afterwards no goroutine is
    running, every object the node had created is closed, the objects that
    existed before are untouched, and the event stream is closed. *)
Theorem NewNode_then_Close (c : NodeConf) (w : World) :
  ¬ rejected c → Forall usable (Endpoints c) → ¬ running w →
  ∃ n w' w'',
    NewNode c w = Done (Some n, None) w'
    ∧ Close n w' = Done () w''
    ∧ ¬ running w''
    ∧ (∀ t, tasks w !! t = None →
            tasks w'' !! t = None ∨ tasks w'' !! t = Some Closed)
    ∧ (∀ t, is_Some (tasks w !! t) → tasks w'' !! t = tasks w !! t)
    ∧ eventChanClosed w'' = true
    ∧ channelsMutex w'' = false.
Proof.
  intros Hok Hall Hidle.
  destruct (NewNode_built c w Hok Hall)
    as (n & w' & Hrun & _ & _ & _ & _ & _ & Ht & Hnew & Hm & He & _ & _).
  assert (Hquiet : ∀ t, tasks w !! t ≠ Some Started).
  { intros t Hs. apply Hidle. by exists t, Started. }
  assert (Hown : ∀ t, tasks w' !! t = Some Started →
            t ∈ channels n ∨ t ∈ channelAccepters n ∨ nodeHeartbeat n = Some t).
  { intros t. rewrite Ht. destruct (decide _) as [Hin|Hout]; [done |].
    intros Hs. by destruct (Hquiet t). }
  assert (Ht'' : ∀ t, tasks (closedNode n w') !! t
            = if decide (t ∈ channels n ∨ t ∈ channelAccepters n
                         ∨ nodeHeartbeat n = Some t)
              then Some Closed else tasks w !! t).
  { intros t. rewrite closedNode_tasks, Ht. by destruct (decide _). }
  exists n, w'. eexists. split; [exact Hrun |]. split.
  { rewrite Close_eval, Hm, He.
    rewrite decide_False by (by apply closedNode_idle). reflexivity. }
  cbn [tasks eventChanClosed channelsMutex record setEventChanClosed].
  split_and!; try done.
  - apply not_running. intros t. rewrite Ht''.
    destruct (decide _); [done | apply Hquiet].
  - intros t Hnone. rewrite Ht''. destruct (decide _); [by right | by left].
  - intros t [s Hs]. rewrite Ht''. destruct (decide _) as [Hin|Hout]; [| done].
    rewrite (Hnew t Hin) in Hs. done.
Qed.

End Runtime.

(** * The properties at concrete inputs *)

(** Settles a decidable closed proposition by evaluating its decision
    procedure. *)
Ltac decide_by_compute :=
  apply (bool_decide_unpack _); vm_compute; exact I.

(** [writeAll] on the example node: the item reaches the queues of
    channels 1 and 3, and two completion tokens are received before the
    unlock. *)
Lemma writeAll_fanout_witness :
  channelsMutex (runningWorld (What:=nat)) = false
  ∧ ∃ w', writeAll elementsOrder Examples.node 7%nat runningWorld = Done () w'
          ∧ log w' = [OpLock; OpSend 3 7%nat; OpSend 1 7%nat;
                      OpRecvDone; OpRecvDone; OpUnlock]
          ∧ queue w' 1 = [7%nat] ∧ queue w' 3 = [7%nat] ∧ queue w' 2 = []
          ∧ channelsMutex w' = false ∧ writeDone w' = 0%nat.
Proof.
  split; [reflexivity |].
  destruct (writeAll_fanout elementsOrder Examples.node 7%nat runningWorld
              eq_refl) as (w' & Hrun & Hlog & Hin & Hout & Hm & Hd).
  exists w'. split; [exact Hrun |]. split; [rewrite Hlog; reflexivity |].
  split; [apply (Hin 1%positive); decide_by_compute |].
  split; [apply (Hin 3%positive); decide_by_compute |].
  split; [apply (Hout 2%positive); decide_by_compute |].
  split; [exact Hm | exact Hd].
Defined.

(** [writeExcept] of channel 3 on the example node: only channel 1 is
    written to. *)
Lemma writeExcept_fanout_witness :
  channelsMutex (runningWorld (What:=nat)) = false
  ∧ ∃ w', writeExcept elementsOrder Examples.node 3 7%nat runningWorld
            = Done () w'
          ∧ log w' = [OpLock; OpSend 1 7%nat; OpRecvDone; OpUnlock]
          ∧ queue w' 1 = [7%nat] ∧ queue w' 3 = []
          ∧ channelsMutex w' = false ∧ writeDone w' = 0%nat.
Proof.
  split; [reflexivity |].
  destruct (writeExcept_fanout elementsOrder Examples.node 3 7%nat runningWorld
              eq_refl) as (w' & Hrun & Hlog & Hin & Hout & Hnot & Hex & Hm & Hd).
  exists w'. split; [exact Hrun |]. split; [rewrite Hlog; reflexivity |].
  split.
  { apply (Hin 1%positive); [decide_by_compute |].
    discriminate. }
  split; [exact Hex |]. split; [exact Hm | exact Hd].
Defined.

(** [writeTo] a registered channel of the example node. *)
Lemma writeTo_registered_witness :
  (1%positive ∈ channels Examples.node)
  ∧ channelsMutex (runningWorld (What:=nat)) = false
  ∧ ∃ w', writeTo Examples.node 1 7%nat runningWorld = Done () w'
          ∧ log w' = [OpLock; OpSend 1 7%nat; OpRecvDone; OpUnlock]
          ∧ queue w' 1 = [7%nat]
          ∧ writeChan w' !! 3%positive = None
          ∧ channelsMutex w' = false ∧ writeDone w' = 0%nat.
Proof.
  assert (Hin : 1%positive ∈ channels Examples.node)
    by (decide_by_compute).
  split; [exact Hin |]. split; [reflexivity |].
  destruct (writeTo_registered Examples.node 1 7%nat runningWorld Hin eq_refl)
    as (w' & Hrun & Hlog & Hq & Hothers & Hm & Hd).
  exists w'. split; [exact Hrun |]. split; [exact Hlog |].
  split; [exact Hq |].
  split; [rewrite (Hothers 3%positive); [reflexivity | discriminate] |].
  split; [exact Hm | exact Hd].
Defined.

(** [writeTo] a channel the example node does not know. *)
Lemma writeTo_unregistered_witness :
  (9%positive ∉ channels Examples.node)
  ∧ channelsMutex (runningWorld (What:=nat)) = false
  ∧ ∃ w', writeTo Examples.node 9 7%nat runningWorld = Done () w'
          ∧ log w' = [OpLock; OpUnlock]
          ∧ writeChan w' = ∅ ∧ writeDone w' = 0%nat
          ∧ channelsMutex w' = false
          ∧ eventChanClosed w' = false
          ∧ tasks w' = tasks (runningWorld (What:=nat)).
Proof.
  assert (Hout : 9%positive ∉ channels Examples.node)
    by (decide_by_compute).
  split; [exact Hout |]. split; [reflexivity |].
  exact (writeTo_unregistered Examples.node 9 7%nat runningWorld Hout eq_refl).
Defined.

(** [Close] on the example node, ranging over the maps in reverse order. *)
Lemma Close_sequence_witness :
  channelsMutex (runningWorld (What:=nat)) = false
  ∧ eventChanClosed (runningWorld (What:=nat)) = false
  ∧ (∀ t, tasks (runningWorld (What:=nat)) !! t = Some Started →
          t ∈ channels Examples.node ∨ t ∈ channelAccepters Examples.node
          ∨ nodeHeartbeat Examples.node = Some t)
  ∧ ∃ w', Close reverseOrder Examples.node (runningWorld (What:=nat))
            = Done () w'
          ∧ log w' = [OpClose 4; OpClose 2; OpLock; OpClose 1; OpClose 3;
                      OpUnlock; OpDrainEvents; OpWgWait; OpCloseEvents]
          ∧ tasks w' !! 1%positive = Some Closed
          ∧ tasks w' !! 3%positive = Some Closed
          ∧ ¬ running w'
          ∧ eventChanClosed w' = true
          ∧ channelsMutex w' = false.
Proof.
  assert (Hown : ∀ t, tasks (runningWorld (What:=nat)) !! t = Some Started →
            t ∈ channels Examples.node ∨ t ∈ channelAccepters Examples.node
            ∨ nodeHeartbeat Examples.node = Some t).
  { intros t Ht.
    assert (Hall : map_Forall
              (λ t (_ : TaskState),
                 t ∈ channels Examples.node ∨ t ∈ channelAccepters Examples.node
                 ∨ nodeHeartbeat Examples.node = Some t)
              (tasks (runningWorld (What:=nat)))) by decide_by_compute.
    exact (Hall t Started Ht). }
  split; [reflexivity |]. split; [reflexivity |]. split; [exact Hown |].
  destruct (Close_sequence reverseOrder Examples.node runningWorld
              eq_refl eq_refl Hown)
    as (w' & before & Hrun & Hbefore & Hlog & Honce & Hch & Hidle & He & Hm).
  exists w'. split; [exact Hrun |].
  split; [rewrite Hlog, Hbefore; reflexivity |].
  split; [apply Hch; decide_by_compute |].
  split; [apply Hch; decide_by_compute |].
  split; [exact Hidle |]. split; [exact He | exact Hm].
Defined.

(** [NewNode] on the package example with three endpoints. *)
Lemma NewNode_defaults_witness :
  ∃ n w',
    NewNode (What:=nat) elementsOrder
      (Examples.nodeConf [Examples.serial; Examples.tcpServer; Examples.serial])
      emptyWorld = Done (Some n, None) w'
    ∧ OutComponentId (conf n) = 1%N
    ∧ HeartbeatPeriod (conf n) = 5000000000
    ∧ HeartbeatSystemType (conf n) = 6
    ∧ OutSystemId (conf n) = 10%N
    ∧ OutVersion (conf n) = V2
    ∧ Endpoints (conf n)
      = [Examples.serial; Examples.tcpServer; Examples.serial].
Proof.
  assert (H : ∃ n w',
    NewNode (What:=nat) elementsOrder
      (Examples.nodeConf [Examples.serial; Examples.tcpServer; Examples.serial])
      emptyWorld = Done (Some n, None) w')
    by (eexists _, _; vm_compute; reflexivity).
  destruct H as (n & w' & H). exists n, w'. split; [exact H |].
  destruct (NewNode_defaults elementsOrder _ _ n None w' H)
    as (H1 & H2 & H3 & H4 & _ & _ & H7 & H8 & _ & _).
  rewrite H1, H2, H3, H4, H7, H8. repeat split; reflexivity.
Defined.

(** A configuration that does not set [OutVersion] yields a V2 node. *)
Lemma zero_Version_is_V2_witness :
  OutVersion (Examples.nodeConf [Examples.serial]) = zeroVersion
  ∧ ∃ n w',
      NewNode (What:=nat) elementsOrder (Examples.nodeConf [Examples.serial])
        emptyWorld = Done (Some n, None) w'
      ∧ OutVersion (conf n) = V2.
Proof.
  split; [reflexivity |].
  assert (H : ∃ n w',
    NewNode (What:=nat) elementsOrder (Examples.nodeConf [Examples.serial])
      emptyWorld = Done (Some n, None) w')
    by (eexists _, _; vm_compute; reflexivity).
  destruct H as (n & w' & H). exists n, w'. split; [exact H |].
  destruct (zero_Version_is_V2 (What:=nat) elementsOrder) as (_ & _ & _ & Hz).
  exact (Hz (Examples.nodeConf [Examples.serial]) emptyWorld n None w'
           eq_refl H).
Defined.

(** [NewNode] when the third endpoint fails to initialise: the channel and
    the accepter created for the first two are closed. *)
Lemma NewNode_failure_closes_witness :
  ∃ w',
    NewNode (What:=nat) elementsOrder
      (Examples.nodeConf
         [Examples.serial; Examples.tcpServer; Examples.serialMissing])
      emptyWorld
    = Done (None, Some "open /dev/ttyUSB0: no such file or directory"%string) w'
    ∧ tasks w' !! 1%positive = Some Closed
    ∧ tasks w' !! 2%positive = Some Closed
    ∧ (∀ t, tasks (emptyWorld (What:=nat)) !! t = None →
            tasks w' !! t = None ∨ tasks w' !! t = Some Closed).
Proof.
  eexists. split; [vm_compute; reflexivity |].
  split; [reflexivity |]. split; [reflexivity |].
  eapply (NewNode_failure_closes (What:=nat) elementsOrder
            (Examples.nodeConf
               [Examples.serial; Examples.tcpServer; Examples.serialMissing])
            emptyWorld).
  vm_compute. reflexivity.
Defined.


(** * The further properties at concrete inputs *)

Ltac not_rejected :=
  rewrite rejected_checks; vm_compute; intros [H|[H|H]]; discriminate H.

Ltac all_usable :=
  repeat (apply Forall_cons; split; [eexists; split; reflexivity |]);
  by constructor.

(** The write primitives and [createChannel] against a held mutex. *)
Lemma mutex_held_blocks_witness :
  channelsMutex (setMutex true (runningWorld (What:=nat))) = true
  ∧ writeTo Examples.node 1 7%nat (setMutex true runningWorld)
    = Blocked (setMutex true runningWorld)
  ∧ writeAll elementsOrder Examples.node 7%nat (setMutex true runningWorld)
    = Blocked (setMutex true runningWorld)
  ∧ writeExcept elementsOrder Examples.node 1 7%nat (setMutex true runningWorld)
    = Blocked (setMutex true runningWorld)
  ∧ createChannel Examples.node Examples.serialEndpoint "serial"
      Examples.serialEndpoint (setMutex true (runningWorld (What:=nat)))
    = Blocked (setMutex true runningWorld).
Proof.
  split; [reflexivity |].
  exact (mutex_held_blocks elementsOrder Examples.node 1 7%nat
           Examples.serialEndpoint "serial" (setMutex true runningWorld)
           eq_refl).
Defined.

(** [writeExcept] of a channel the example node does not know. *)
Lemma writeExcept_unregistered_witness :
  (9%positive ∉ channels Examples.node)
  ∧ writeExcept elementsOrder Examples.node 9 7%nat runningWorld
    = writeAll elementsOrder Examples.node 7%nat runningWorld.
Proof.
  assert (Hout : 9%positive ∉ channels Examples.node) by decide_by_compute.
  split; [exact Hout |].
  exact (writeExcept_unregistered elementsOrder Examples.node 9 7%nat
           runningWorld Hout).
Defined.

(** A node without channels, and a node whose only channel is excepted. *)
Lemma fanout_to_nobody_witness :
  channelsMutex (runningWorld (What:=nat)) = false
  ∧ channels (setChannels ∅ Examples.node) = ∅
  ∧ channels (setChannels {[3%positive]} Examples.node) ⊆ {[3%positive]}
  ∧ writeAll elementsOrder (setChannels ∅ Examples.node) 7%nat runningWorld
    = Done () (record OpUnlock (setMutex false
                (record OpLock (setMutex true runningWorld))))
  ∧ writeExcept elementsOrder (setChannels {[3%positive]} Examples.node) 3 7%nat
      runningWorld
    = Done () (record OpUnlock (setMutex false
                (record OpLock (setMutex true runningWorld)))).
Proof.
  assert (Hsub : channels (setChannels {[3%positive]} Examples.node)
                 ⊆ {[3%positive]}) by decide_by_compute.
  split; [reflexivity |]. split; [reflexivity |]. split; [exact Hsub |].
  split.
  - exact (proj1 (fanout_to_nobody elementsOrder
                    (setChannels ∅ Examples.node) 3 7%nat runningWorld eq_refl)
             eq_refl).
  - exact (proj2 (fanout_to_nobody elementsOrder
                    (setChannels {[3%positive]} Examples.node) 3 7%nat
                    runningWorld eq_refl)
             Hsub).
Defined.

(** [writeTo] channel 1 and then [writeExcept] channel 1, against one
    [writeAll], on the example node. *)
Lemma writeTo_then_writeExcept_witness :
  (1%positive ∈ channels Examples.node)
  ∧ channelsMutex (runningWorld (What:=nat)) = false
  ∧ ∃ w1 w2 w3,
      writeTo Examples.node 1 7%nat runningWorld = Done () w1
      ∧ writeExcept elementsOrder Examples.node 1 7%nat w1 = Done () w2
      ∧ writeAll elementsOrder Examples.node 7%nat runningWorld = Done () w3
      ∧ (∀ ch, queue w2 ch = queue w3 ch)
      ∧ channelsMutex w2 = false
      ∧ writeDone w2 = writeDone w3.
Proof.
  assert (Hin : 1%positive ∈ channels Examples.node) by decide_by_compute.
  split; [exact Hin |]. split; [reflexivity |].
  exact (writeTo_then_writeExcept elementsOrder Examples.node 1 7%nat
           runningWorld Hin eq_refl).
Defined.

(** Two items handed to [writeAll] in turn on the example node. *)
Lemma writeAll_each_witness :
  channelsMutex (runningWorld (What:=nat)) = false
  ∧ ∃ w',
      func (range_ [7%nat; 8%nat]
              (λ x, call (writeAll elementsOrder Examples.node x)))
        runningWorld = Done () w'
      ∧ queue w' 1 = [7%nat; 8%nat]
      ∧ queue w' 3 = [7%nat; 8%nat]
      ∧ queue w' 2 = []
      ∧ channelsMutex w' = false
      ∧ writeDone w' = 0%nat.
Proof.
  split; [reflexivity |].
  destruct (writeAll_each elementsOrder Examples.node [7%nat; 8%nat]
              runningWorld eq_refl)
    as (w' & Hrun & Hin & Hout & Hm & Hd & _ & _).
  exists w'. split; [exact Hrun |].
  split; [apply (Hin 1%positive); decide_by_compute |].
  split; [apply (Hin 3%positive); decide_by_compute |].
  split; [apply (Hout 2%positive); decide_by_compute |].
  split; [exact Hm | exact Hd].
Defined.

(** [Close] twice on the example node. *)
Lemma Close_twice_witness :
  ∃ w',
    Close reverseOrder Examples.node (runningWorld (What:=nat)) = Done () w'
    ∧ ∀ w'', Close reverseOrder Examples.node w' ≠ Done () w''.
Proof.
  eexists. split; [vm_compute; reflexivity |].
  apply (Close_twice reverseOrder Examples.node (runningWorld (What:=nat))).
  vm_compute. reflexivity.
Defined.

(** [Close] on the example node while the mutex is held. *)
Lemma Close_waits_for_mutex_witness :
  channelsMutex (setMutex true (runningWorld (What:=nat))) = true
  ∧ ∃ w2,
      Close elementsOrder Examples.node (setMutex true (runningWorld (What:=nat)))
        = Blocked w2
      ∧ log w2 = [OpClose 4; OpClose 2]
      ∧ tasks w2 !! 2%positive = Some Closed
      ∧ tasks w2 !! 1%positive = Some Started
      ∧ tasks w2 !! 3%positive = Some Started
      ∧ eventChanClosed w2 = false
      ∧ channelsMutex w2 = true.
Proof.
  split; [reflexivity |].
  destruct (Close_waits_for_mutex elementsOrder Examples.node
              (setMutex true (runningWorld (What:=nat))) eq_refl)
    as (w2 & Hrun & Hlog & Hacc & Hrest & He & Hm).
  exists w2. split; [exact Hrun |]. split; [rewrite Hlog; reflexivity |].
  split; [apply Hacc; decide_by_compute |].
  split; [rewrite (Hrest 1%positive); [reflexivity | decide_by_compute
                                       | discriminate] |].
  split; [rewrite (Hrest 3%positive); [reflexivity | decide_by_compute
                                       | discriminate] |].
  split; [exact He | exact Hm].
Defined.

(** [createChannel] on the example node: the new channel is 5. *)
Lemma createChannel_registers_witness :
  channelsMutex (runningWorld (What:=nat)) = false
  ∧ ∃ ch n' w',
      createChannel Examples.node Examples.serialEndpoint "serial"
        Examples.serialEndpoint (runningWorld (What:=nat))
      = Done (ch, n') w'
      ∧ tasks (runningWorld (What:=nat)) !! ch = None
      ∧ tasks w' = <[ch := Created]> (tasks (runningWorld (What:=nat)))
      ∧ channels n' = {[ch]} ∪ channels Examples.node
      ∧ channelAccepters n' = channelAccepters Examples.node
      ∧ nodeHeartbeat n' = nodeHeartbeat Examples.node
      ∧ conf n' = conf Examples.node
      ∧ log w' = log (runningWorld (What:=nat))
                 ++ [OpLock; OpNewChannel ch "serial"; OpUnlock]
      ∧ channelsMutex w' = false.
Proof.
  split; [reflexivity |].
  exact (createChannel_registers Examples.node Examples.serialEndpoint
           "serial" Examples.serialEndpoint runningWorld eq_refl).
Defined.

(** The three configuration errors, each on a configuration that fails
    that check first. *)
Lemma NewNode_rejects_witness :
  NewNode (What:=nat) elementsOrder zeroNodeConf emptyWorld
  = Done (None, Some "SystemId must be >= 1"%string) emptyWorld
  ∧ NewNode (What:=nat) elementsOrder (Examples.nodeConf []) emptyWorld
    = Done (None, Some "at least one endpoint must be provided"%string)
        emptyWorld
  ∧ NewNode (What:=nat) elementsOrder Examples.signedV1Conf emptyWorld
    = Done (None, Some "OutSignatureKey requires V2 frames"%string) emptyWorld.
Proof.
  split; [| split].
  - apply (NewNode_rejects (What:=nat) elementsOrder zeroNodeConf emptyWorld).
    reflexivity.
  - apply (NewNode_rejects (What:=nat) elementsOrder (Examples.nodeConf [])
             emptyWorld); [| reflexivity].
    vm_compute. discriminate.
  - apply (NewNode_rejects (What:=nat) elementsOrder Examples.signedV1Conf
             emptyWorld); [| discriminate | discriminate | discriminate].
    vm_compute. discriminate.
Defined.

(** The third endpoint fails: two objects were created, both are closed. *)
Lemma NewNode_first_failure_witness :
  ¬ rejected (Examples.nodeConf
                [Examples.serial; Examples.tcpServer; Examples.serialMissing])
  ∧ Forall usable [Examples.serial; Examples.tcpServer]
  ∧ ∃ w' (created : gset positive),
      NewNode (What:=nat) elementsOrder
        (Examples.nodeConf
           [Examples.serial; Examples.tcpServer; Examples.serialMissing])
        emptyWorld
      = Done (None,
              Some "open /dev/ttyUSB0: no such file or directory"%string) w'
      ∧ size created = 2%nat
      ∧ (∀ t, t ∈ created →
              tasks (emptyWorld (What:=nat)) !! t = None
              ∧ tasks w' !! t = Some Closed)
      ∧ (∀ t, t ∉ created →
              tasks w' !! t = tasks (emptyWorld (What:=nat)) !! t).
Proof.
  assert (Hok : ¬ rejected (Examples.nodeConf
            [Examples.serial; Examples.tcpServer; Examples.serialMissing]))
    by not_rejected.
  assert (Hall : Forall usable [Examples.serial; Examples.tcpServer])
    by all_usable.
  split; [exact Hok |]. split; [exact Hall |].
  exact (NewNode_first_failure (What:=nat) elementsOrder _ emptyWorld
           [Examples.serial; Examples.tcpServer] [] Examples.serialMissing
           _ Hok eq_refl Hall eq_refl).
Defined.

(** A bare endpoint after a serial one: the channel of the serial endpoint
    is left allocated. *)
Lemma NewNode_unsupported_leaks_witness :
  ¬ rejected (Examples.nodeConf
                [Examples.serial; Examples.bare; Examples.serialMissing])
  ∧ Forall usable [Examples.serial]
  ∧ ∃ w' (created : gset positive),
      NewNode (What:=nat) elementsOrder
        (Examples.nodeConf
           [Examples.serial; Examples.bare; Examples.serialMissing])
        emptyWorld
      = Panicked
          "endpoint *gomavlib.endpointBare does not implement any interface"
          w'
      ∧ size created = 1%nat
      ∧ (∀ t, t ∈ created →
              tasks (emptyWorld (What:=nat)) !! t = None
              ∧ tasks w' !! t = Some Created)
      ∧ (∀ t, t ∉ created →
              tasks w' !! t = tasks (emptyWorld (What:=nat)) !! t).
Proof.
  assert (Hok : ¬ rejected (Examples.nodeConf
            [Examples.serial; Examples.bare; Examples.serialMissing]))
    by not_rejected.
  assert (Hall : Forall usable [Examples.serial]) by all_usable.
  split; [exact Hok |]. split; [exact Hall |].
  exact (NewNode_unsupported_leaks (What:=nat) elementsOrder _ emptyWorld
           [Examples.serial] [Examples.serialMissing] Examples.bare
           _ Hok eq_refl Hall eq_refl eq_refl).
Defined.

(** The package example with three endpoints: two channels, one accepter. *)
Lemma NewNode_success_witness :
  ¬ rejected (Examples.nodeConf
                [Examples.serial; Examples.tcpServer; Examples.serial])
  ∧ Forall usable [Examples.serial; Examples.tcpServer; Examples.serial]
  ∧ ∃ n w',
      NewNode (What:=nat) elementsOrder
        (Examples.nodeConf
           [Examples.serial; Examples.tcpServer; Examples.serial])
        emptyWorld
      = Done (Some n, None) w'
      ∧ size (channels n) = 2%nat
      ∧ size (channelAccepters n) = 1%nat
      ∧ channels n ## channelAccepters n
      ∧ channelsMutex w' = false
      ∧ eventChanClosed w' = false
      ∧ writeDone w' = 0%nat.
Proof.
  assert (Hok : ¬ rejected (Examples.nodeConf
            [Examples.serial; Examples.tcpServer; Examples.serial]))
    by not_rejected.
  assert (Hall : Forall usable
            [Examples.serial; Examples.tcpServer; Examples.serial])
    by all_usable.
  split; [exact Hok |]. split; [exact Hall |].
  destruct (NewNode_success (What:=nat) elementsOrder _ emptyWorld Hok Hall)
    as (n & w' & Hrun & Hs1 & Hs2 & _ & Hdisj & _ & _ & _ & Hm & He & Hd & _).
  exists n, w'. split; [exact Hrun |].
  split; [exact Hs1 |]. split; [exact Hs2 |]. split; [exact Hdisj |].
  split; [exact Hm |]. split; [exact He | exact Hd].
Defined.

(** The package example, built and then closed. *)
Lemma NewNode_then_Close_witness :
  ¬ rejected (Examples.nodeConf
                [Examples.serial; Examples.tcpServer; Examples.serial])
  ∧ Forall usable [Examples.serial; Examples.tcpServer; Examples.serial]
  ∧ ¬ running (emptyWorld (What:=nat))
  ∧ ∃ n w' w'',
      NewNode (What:=nat) elementsOrder
        (Examples.nodeConf
           [Examples.serial; Examples.tcpServer; Examples.serial])
        emptyWorld
      = Done (Some n, None) w'
      ∧ Close elementsOrder n w' = Done () w''
      ∧ ¬ running w''
      ∧ eventChanClosed w'' = true
      ∧ channelsMutex w'' = false.
Proof.
  assert (Hok : ¬ rejected (Examples.nodeConf
            [Examples.serial; Examples.tcpServer; Examples.serial]))
    by not_rejected.
  assert (Hall : Forall usable
            [Examples.serial; Examples.tcpServer; Examples.serial])
    by all_usable.
  assert (Hidle : ¬ running (emptyWorld (What:=nat))) by decide_by_compute.
  split; [exact Hok |]. split; [exact Hall |]. split; [exact Hidle |].
  destruct (NewNode_then_Close (What:=nat) elementsOrder _ emptyWorld
              Hok Hall Hidle)
    as (n & w' & w'' & Hrun & Hclose & Hquiet & _ & _ & He & Hm).
  exists n, w', w''. split; [exact Hrun |]. split; [exact Hclose |].
  split; [exact Hquiet |]. split; [exact He | exact Hm].
Defined.

(** * The order of the map ranges *)

(** X16.  The order in which Go happens to range over [n.channels] does
    not change what a fan-out delivers: under any two orders, [writeAll]
    (and likewise [writeExcept]) returns with every write queue, the
    tokens due, the mutex, the tasks and the event stream the same; only
    the order of the sends in the log can differ. *)
Theorem fanout_order_irrelevant {What : Type} (o1 o2 : MapOrder) (n : Node)
    (exceptChannel : Channel) (what : What) (w : World) :
  channelsMutex w = false →
  (∃ w1 w2,
     writeAll o1 n what w = Done () w1
     ∧ writeAll o2 n what w = Done () w2
     ∧ (∀ ch, queue w1 ch = queue w2 ch)
     ∧ writeDone w1 = writeDone w2
     ∧ channelsMutex w1 = channelsMutex w2
     ∧ tasks w1 = tasks w2
     ∧ eventChanClosed w1 = eventChanClosed w2)
  ∧ (∃ w1 w2,
       writeExcept o1 n exceptChannel what w = Done () w1
       ∧ writeExcept o2 n exceptChannel what w = Done () w2
       ∧ (∀ ch, queue w1 ch = queue w2 ch)
       ∧ writeDone w1 = writeDone w2
       ∧ channelsMutex w1 = channelsMutex w2
       ∧ tasks w1 = tasks w2
       ∧ eventChanClosed w1 = eventChanClosed w2).
Proof.
  intros Hm. split.
  - destruct (writeAll_facts o1 n what w Hm)
      as (w1 & Hrun1 & Hq1 & Hm1 & Hd1 & He1 & Ht1).
    destruct (writeAll_facts o2 n what w Hm)
      as (w2 & Hrun2 & Hq2 & Hm2 & Hd2 & He2 & Ht2).
    exists w1, w2. split_and!; try done; try congruence.
    intros ch. by rewrite Hq1, Hq2.
  - destruct (fanout_spec o1 (λ ch, ch ≠ exceptChannel)
                (λ c, if bool_decide (c ≠ exceptChannel)
                      then call (send c what) ;; defer recvDone
                      else mret ())
                what n w) as (w1 & Hrun1 & _ & Hq1 & Hm1 & Hd1 & He1 & Ht1);
      [done | done |].
    destruct (fanout_spec o2 (λ ch, ch ≠ exceptChannel)
                (λ c, if bool_decide (c ≠ exceptChannel)
                      then call (send c what) ;; defer recvDone
                      else mret ())
                what n w) as (w2 & Hrun2 & _ & Hq2 & Hm2 & Hd2 & He2 & Ht2);
      [done | done |].
    exists w1, w2. split_and!; try done; try congruence.
    intros ch. rewrite Hq1, Hq2. apply decide_ext.
    by rewrite !list_elem_of_filter, !in_order.
Qed.

(** The example node written to under two different orders. *)
Lemma fanout_order_irrelevant_witness :
  channelsMutex (runningWorld (What:=nat)) = false
  ∧ ∃ w1 w2,
      writeAll elementsOrder Examples.node 7%nat runningWorld = Done () w1
      ∧ writeAll reverseOrder Examples.node 7%nat runningWorld = Done () w2
      ∧ log w1 = [OpLock; OpSend 3 7%nat; OpSend 1 7%nat;
                  OpRecvDone; OpRecvDone; OpUnlock]
      ∧ log w2 = [OpLock; OpSend 1 7%nat; OpSend 3 7%nat;
                  OpRecvDone; OpRecvDone; OpUnlock]
      ∧ (∀ ch, queue w1 ch = queue w2 ch)
      ∧ writeDone w1 = writeDone w2.
Proof.
  split; [reflexivity |].
  destruct (fanout_order_irrelevant elementsOrder reverseOrder Examples.node
              3 7%nat runningWorld eq_refl)
    as [(w1 & w2 & Hrun1 & Hrun2 & Hq & Hd & _) _].
  exists w1, w2. split; [exact Hrun1 |]. split; [exact Hrun2 |].
  assert (H1 : writeAll elementsOrder Examples.node 7%nat runningWorld
               = Done () w1) by exact Hrun1.
  assert (H2 : writeAll reverseOrder Examples.node 7%nat runningWorld
               = Done () w2) by exact Hrun2.
  vm_compute in H1, H2.
  injection H1 as <-. injection H2 as <-.
  split; [reflexivity |]. split; [reflexivity |].
  split; [exact Hq | exact Hd].
Defined.
